(** * Taskorganizer: the task store and its derived views

    A shallow embedding of the [App] component and of [types.ts]:
    the task record, the [addTask] / [toggleTask] / [deleteTask] handlers,
    the start-up loader of the [tasks] state, and the three memoised views
    [sortedTasks], [todayTasks] / [overdueTasks] and
    [productivityPercentage].

    React state is modelled by explicit state passing: a handler is a
    function from the component state to the next one.  The platform
    functions the component calls ([String.prototype.trim],
    [String.prototype.toLowerCase], [Array.prototype.sort], [Math.round],
    arithmetic on Numbers) are modelled in [Module JS]; [Date] parsing and
    [JSON.parse] are parameters of the sections that use them.

    Conventions.  Texts are sequences of the code units U+0000-U+00FF.
    The creation time of a task is an integer number of milliseconds, as
    [Date.now()] gives it, and so are the time values of dates; the
    comparators subtract such integers exactly.  The productivity
    percentage is computed on binary64 Numbers, as the component does. *)

From Stdlib Require Import ZArith Ascii String Floats.SpecFloat.
From stdpp Require Import base list strings sorting pretty gmap.

Local Open Scope Z_scope.

(** ** The JavaScript primitives used by the component *)
Module JS.

(** *** Numbers: IEEE 754 binary64, round to nearest even *)

Definition prec : Z := 53.
Definition emax : Z := 1024.

Definition number : Type := spec_float.

(** The Number of a non-negative integer (exact below 2^53). *)
Definition of_Z (z : Z) : number := binary_normalize prec emax z 0 false.
Definition of_nat (n : nat) : number := of_Z (Z.of_nat n).

(** [x / y] and [x * y] on Numbers. *)
Definition div (x y : number) : number := SFdiv prec emax x y.
Definition mul (x y : number) : number := SFmul prec emax x y.

(** [Math.round]: the integer closest to [x], ties going towards plus
    infinity, that is [floor (x + 1/2)] computed exactly.  A finite Number
    is [(-1)^s * m * 2^e]; the not-a-number and infinite cases do not
    yield an integer and are mapped to [None]. *)
Definition Math_round (x : number) : option Z :=
  match x with
  | S754_zero _ => Some 0
  | S754_finite s m e =>
      let v := if s then Z.neg m else Z.pos m in
      if 0 <=? e then Some (v * 2 ^ e)
      else Some ((2 * v + 2 ^ (- e)) `div` 2 ^ (1 - e))
  | S754_infinity _ | S754_nan => None
  end.

(** *** Strings

    A string is a sequence of code units; the model keeps the code units
    U+0000 to U+00FF, one [ascii] each. *)

Definition code (c : ascii) : N := N_of_ascii c.

(** The code units [String.prototype.trim] strips (WhiteSpace and
    LineTerminator) in this range: TAB, LF, VT, FF, CR, SP and NBSP. *)
Definition isWhiteSpace (c : ascii) : bool :=
  let n := code c in
  ((9 <=? n) && (n <=? 13) || (n =? 32) || (n =? 160))%N.

Fixpoint trimStart (s : string) : string :=
  match s with
  | EmptyString => EmptyString
  | String c r => if isWhiteSpace c then trimStart r else s
  end.

Fixpoint trimEnd (s : string) : string :=
  match s with
  | EmptyString => EmptyString
  | String c r =>
      match trimEnd r with
      | EmptyString => if isWhiteSpace c then EmptyString else String c EmptyString
      | r' => String c r'
      end
  end.

Definition trim (s : string) : string := trimEnd (trimStart s).

(** [String.prototype.toLowerCase] on this range: A-Z and the Latin-1
    capitals U+00C0-U+00DE (the multiplication sign U+00D7 apart) move up
    by 32; every other code unit is its own lower case. *)
Definition toLowerChar (c : ascii) : ascii :=
  let n := code c in
  if ((65 <=? n) && (n <=? 90) || (192 <=? n) && (n <=? 222) && negb (n =? 215))%N
  then ascii_of_N (n + 32) else c.

Fixpoint toLowerCase (s : string) : string :=
  match s with
  | EmptyString => EmptyString
  | String c r => String (toLowerChar c) (toLowerCase r)
  end.

(** Truthiness of a value of type [string | undefined]. *)
Definition truthy (o : option string) : bool :=
  match o with
  | Some EmptyString | None => false
  | Some _ => true
  end.

(** *** [Array.prototype.sort]

    The sort is stable and the comparator returns a Number; a comparator
    result that is not a number counts as [+0].  The comparator results of
    this program are integers or not-a-number, so they are modelled by
    [option Z] with [None] for not-a-number.  With a consistent comparator
    the result is fixed by the language: it is the sorted, stable
    rearrangement (see [sorted_stable_unique] below).  It is computed here
    by insertion from the right. *)
Section Sort.
Context {A : Type}.
Variable comparefn : A -> A -> option Z.

Definition SortCompare (x y : A) : Z := default 0 (comparefn x y).

Fixpoint sort_insert (x : A) (l : list A) : list A :=
  match l with
  | [] => [x]
  | y :: l' => if SortCompare x y <=? 0 then x :: l else y :: sort_insert x l'
  end.

Fixpoint Array_sort (l : list A) : list A :=
  match l with
  | [] => []
  | x :: l' => sort_insert x (Array_sort l')
  end.

(** [x] may stand before [y]. *)
Definition cmp_le (x y : A) : Prop := SortCompare x y <= 0.
End Sort.

End JS.

(** ** types.ts *)

Inductive TaskPriority : Type := high | medium | low.

Record Task : Type := mkTask {
  id : string;
  text : string;
  completed : bool;
  createdAt : Z;
  priority : TaskPriority;
  dueDate : option string
}.

#[global] Instance TaskPriority_eq_dec : EqDecision TaskPriority.
Proof. solve_decision. Defined.

#[global] Instance Task_eq_dec : EqDecision Task.
Proof. solve_decision. Defined.

(** ** The App component: state *)

(** The three literals passed to [setNotification]: admin mode enabled
    (line 74), admin mode disabled (line 79), task already exists (line 84). *)
Inductive message : Type := MsgAdminEnabled | MsgAdminDisabled | MsgTaskExists.

Record AppState : Type := mkApp {
  tasks : list Task;
  notification : option message;
  isAdmin : bool
}.

Definition setTasks (f : list Task -> list Task) (st : AppState) : AppState :=
  mkApp (f (tasks st)) (notification st) (isAdmin st).
Definition setNotification (m : option message) (st : AppState) : AppState :=
  mkApp (tasks st) m (isAdmin st).
Definition setIsAdmin (b : bool) (st : AppState) : AppState :=
  mkApp (tasks st) (notification st) b.

(** ** The App component: the handlers *)

(** [addTask]; [uuid] is the value of [crypto.randomUUID()] and [now] the
    value of [Date.now()] at the call. *)
Definition addTask (uuid : string) (now : Z)
    (text' : string) (priority' : TaskPriority) (dueDate' : option string)
    (st : AppState) : AppState :=
  let trimmedText := JS.trim text' in
  if decide (trimmedText = "") then st else
  let commandText := JS.toLowerCase trimmedText in
  if decide (commandText = "admin") then
    setNotification (Some MsgAdminEnabled) (setIsAdmin true st)
  else if decide (commandText = "unadmin") then
    setNotification (Some MsgAdminDisabled) (setIsAdmin false st)
  else if decide (Exists (fun task =>
            JS.toLowerCase (JS.trim (text task)) = JS.toLowerCase trimmedText)
            (tasks st)) then
    setNotification (Some MsgTaskExists) st
  else
    let newTask := {|
      id := uuid;
      text := trimmedText;
      completed := false;
      createdAt := now;
      priority := priority';
      dueDate := if JS.truthy dueDate' then dueDate' else None
    |} in
    setTasks (fun prevTasks => newTask :: prevTasks) st.

Definition toggleTask (id' : string) (st : AppState) : AppState :=
  setTasks (fun prevTasks =>
    (fun task =>
      if decide (id task = id')
      then {| id := id task; text := text task;
              completed := negb (completed task);
              createdAt := createdAt task; priority := priority task;
              dueDate := dueDate task |}
      else task) <$> prevTasks) st.

Definition deleteTask (id' : string) (st : AppState) : AppState :=
  setTasks (fun prevTasks =>
    filter (fun task => id task <> id') prevTasks) st.

(** ** The App component: the derived views *)

Definition priorityOrder (p : TaskPriority) : Z :=
  match p with high => 1 | medium => 2 | low => 3 end.

(** The comparator of [sortedTasks] (lines 113-117). *)
Definition byPriorityThenNewest (a b : Task) : option Z :=
  let priorityDiff := priorityOrder (priority a) - priorityOrder (priority b) in
  if negb (priorityDiff =? 0) then Some priorityDiff
  else Some (createdAt b - createdAt a).

Definition sortedTasks (tasks : list Task) : list Task :=
  JS.Array_sort byPriorityThenNewest tasks.

Section Views.
(** [Date_parse s] is the time value of [new Date(s)] in milliseconds
    since the epoch, [None] when the date is invalid (time value NaN). *)
Variable Date_parse : string -> option Z.

(** [new Date(task.dueDate).getTime()]; an absent due date gives an
    invalid date. *)
Definition dueTime (task : Task) : option Z :=
  match dueDate task with
  | Some d => Date_parse d
  | None => None
  end.

(** [d < currentTime] on dates: false when [d] is invalid. *)
Definition date_lt (d : option Z) (currentTime : Z) : bool :=
  match d with
  | Some t => t <? currentTime
  | None => false
  end.

(** Subtraction of two time values; NaN propagates. *)
Definition time_sub (x y : option Z) : option Z :=
  match x, y with
  | Some a, Some b => Some (a - b)
  | _, _ => None
  end.

Definition isOverdue (currentTime : Z) (task : Task) : bool :=
  negb (completed task) && JS.truthy (dueDate task)
    && date_lt (dueTime task) currentTime.

(** The [forEach] of lines 124-132: each task is pushed on one of the
    two lists.  The pair is [(todayTasksList, overdueTasksList)]. *)
Definition classify (currentTime : Z) (sorted : list Task)
    : list Task * list Task :=
  fold_left (fun '(todayTasksList, overdueTasksList) task =>
               if isOverdue currentTime task
               then (todayTasksList, overdueTasksList ++ [task])
               else (todayTasksList ++ [task], overdueTasksList))
            sorted ([], []).

(** The comparator of the overdue list (lines 135-139). *)
Definition byPriorityThenDue (a b : Task) : option Z :=
  let priorityDiff := priorityOrder (priority a) - priorityOrder (priority b) in
  if negb (priorityDiff =? 0) then Some priorityDiff
  else time_sub (dueTime a) (dueTime b).

Definition todayTasks (tasks : list Task) (currentTime : Z) : list Task :=
  fst (classify currentTime (sortedTasks tasks)).

Definition overdueTasks (tasks : list Task) (currentTime : Z) : list Task :=
  JS.Array_sort byPriorityThenDue (snd (classify currentTime (sortedTasks tasks))).

(** Lines 144-151.  The result is an integer-valued Number. *)
Definition productivityPercentage (tasks : list Task) (currentTime : Z)
    : option Z :=
  let allTasks := todayTasks tasks currentTime ++ overdueTasks tasks currentTime in
  if Nat.eqb (length allTasks) 0 then Some 100 else
  let completedTasks :=
    length (filter (fun task => completed task = true)
                   (todayTasks tasks currentTime)) in
  JS.Math_round
    (JS.mul (JS.div (JS.of_nat completedTasks) (JS.of_nat (length allTasks)))
            (JS.of_nat 100)).
End Views.

(** ** The App component: loading the saved tasks (lines 18-27)

    The initializer runs in a small monad of computations that may throw
    and that write to the console. *)

Inductive outcome (E A : Type) : Type :=
  | Returns (a : A)
  | Throws (e : E).
Arguments Returns {E A} a.
Arguments Throws {E A} e.

(** A line written by [console.error]: the text and the error logged. *)
Record logEntry (E : Type) : Type := mkLog { log_text : string; log_error : E }.
Arguments mkLog {E} _ _.

Definition Comp (E A : Type) : Type :=
  list (logEntry E) -> outcome E A * list (logEntry E).

Definition ret {E A} (a : A) : Comp E A := fun console => (Returns a, console).
Definition bind {E A B} (c : Comp E A) (k : A -> Comp E B) : Comp E B :=
  fun console =>
    match c console with
    | (Returns a, console') => k a console'
    | (Throws e, console') => (Throws e, console')
    end.
Definition try_catch {E A} (body : Comp E A) (handler : E -> Comp E A) : Comp E A :=
  fun console =>
    match body console with
    | (Returns a, console') => (Returns a, console')
    | (Throws e, console') => handler e console'
    end.
Definition console_error {E} (msg : string) (e : E) : Comp E unit :=
  fun console => (Returns tt, console ++ [mkLog msg e]).

#[global] Instance Comp_ret {E} : MRet (Comp E) := fun A => @ret E A.
#[global] Instance Comp_bind {E} : MBind (Comp E) := fun A B k c => bind c k.

Section Load.
Context {E : Type}.
(** [JSON.parse], typed as the component types it: the saved [Task[]],
    or a thrown error. *)
Variable JSON_parse : string -> outcome E (list Task).
(** The content of [localStorage]: the value saved under a key, if any. *)
Variable localStorage : string -> option string.

Definition getItem (key : string) : Comp E (option string) :=
  ret (localStorage key).

Definition parse (s : string) : Comp E (list Task) :=
  fun console => (JSON_parse s, console).

Definition initialTasks : Comp E (list Task) :=
  try_catch
    (savedTasks ← getItem "tasks";
     match savedTasks with
     | Some s => if JS.truthy savedTasks then parse s else ret []
     | None => ret []
     end)
    (fun error =>
       console_error "Could not parse tasks from localStorage" error ;;
       ret []).
End Load.

(** ** The App component: the theme (lines 9-16 and 62-64) *)

(** The initializer of the [theme] state.  [matchMedia] is
    [window.matchMedia], absent in some hosts; applied to a media query it
    tells whether the query matches. *)
Definition initialTheme (localStorage : string -> option string)
    (matchMedia : option (string -> bool)) : string :=
  let savedTheme := localStorage "theme" in
  let ambient :=
    match matchMedia with
    | Some matches =>
        if matches "(prefers-color-scheme: dark)" then "dark" else "light"
    | None => "light"
    end in
  match savedTheme with
  | Some s => if JS.truthy savedTheme then s else ambient
  | None => ambient
  end.

Definition toggleTheme (prevTheme : string) : string :=
  if decide (prevTheme = "dark") then "light" else "dark".

(** ** The App component: the effects on the page (lines 40-51)

    The part of the page the effects write to: the class list of the
    document element and the content of [localStorage]. *)
Record Page : Type := mkPage {
  classList : gset string;
  storage : gmap string string
}.

(** The effect run when [theme] changes (lines 40-47). *)
Definition themeEffect (theme : string) (page : Page) : Page :=
  {| classList := if decide (theme = "dark")
                  then classList page ∪ {["dark"]}
                  else classList page ∖ {["dark"]};
     storage := <["theme" := theme]> (storage page) |}.

(** The effect run when [tasks] changes (lines 49-51); [JSON_stringify]
    is [JSON.stringify] on a task collection. *)
Definition tasksEffect (JSON_stringify : list Task -> string)
    (tasks : list Task) (page : Page) : Page :=
  {| classList := classList page;
     storage := <["tasks" := JSON_stringify tasks]> (storage page) |}.

(** [localStorage.getItem] on the content of the storage. *)
Definition stored (page : Page) (key : string) : option string :=
  storage page !! key.

(** ** A reference instance of date parsing

    The date-only form [YYYY-MM-DD] of the Date Time String Format, which
    is the format of a saved [dueDate]; it is read as midnight UTC.  Every
    other text is taken as an invalid date.  The views are parametric in
    the parser; this instance serves to run them on concrete dates. *)
Module ISODate.

Definition digit (c : ascii) : option Z :=
  let n := Z.of_N (JS.code c) in
  if (48 <=? n) && (n <=? 57) then Some (n - 48) else None.

Definition is_leap (y : Z) : bool :=
  (y mod 4 =? 0) && (negb (y mod 100 =? 0) || (y mod 400 =? 0)).

Definition days_in_month (y m : Z) : Z :=
  if m =? 2 then (if is_leap y then 29 else 28)
  else if (m =? 4) || (m =? 6) || (m =? 9) || (m =? 11) then 30 else 31.

(** Days from 1970-01-01 to the civil date [y-m-d]. *)
Definition days_from_civil (y m d : Z) : Z :=
  let y' := if m <=? 2 then y - 1 else y in
  let era := y' `div` 400 in
  let yoe := y' - era * 400 in
  let mp := if 2 <? m then m - 3 else m + 9 in
  let doy := (153 * mp + 2) `div` 5 + d - 1 in
  let doe := yoe * 365 + yoe `div` 4 - yoe `div` 100 + doy in
  era * 146097 + doe - 719468.

Definition msPerDay : Z := 86400000.

Definition number2 (a b : ascii) : option Z :=
  x ← digit a; y ← digit b; Some (10 * x + y).

Definition parse (s : string) : option Z :=
  match s with
  | String y1 (String y2 (String y3 (String y4 (String "-"
      (String m1 (String m2 (String "-"
        (String d1 (String d2 EmptyString))))))))) =>
      yh ← number2 y1 y2; yl ← number2 y3 y4;
      m ← number2 m1 m2; d ← number2 d1 d2;
      let y := 100 * yh + yl in
      if (1 <=? m) && (m <=? 12) && (1 <=? d) && (d <=? days_in_month y m)
      then Some (days_from_civil y m d * msPerDay) else None
  | _ => None
  end.

End ISODate.

(** ** A reference instance of [JSON.stringify] and [JSON.parse]

    The serializer writes a task collection as [JSON.stringify] writes
    the array of the task objects the handlers build: the fields in the
    order [id], [text], [completed], [createdAt], [priority], [dueDate],
    an absent due date left out, no white space.  The parser reads JSON
    texts (white space, arrays, objects, strings with their escapes,
    integers, the three literals) and gives the value the typed view
    [Task[]]; a text that is not JSON throws.  JSON texts that are not a
    task collection, numbers with a fraction or an exponent and code
    units above U+00FF are outside the typed model and reported like a
    syntax error.  The loader and the effect are parametric in both;
    these instances serve to run them on concrete collections. *)
Module JSON.

Definition quote : ascii := ascii_of_nat 34.
Definition backslash : ascii := ascii_of_nat 92.

Definition hex_digit (n : N) : ascii :=
  if (n <? 10)%N then ascii_of_N (48 + n) else ascii_of_N (87 + n).

(** QuoteJSONString on one code unit. *)
Definition escape_char (c : ascii) : string :=
  let n := JS.code c in
  if (n =? 34)%N then String backslash (String quote "")
  else if (n =? 92)%N then String backslash (String backslash "")
  else if (n =? 8)%N then String backslash "b"
  else if (n =? 12)%N then String backslash "f"
  else if (n =? 10)%N then String backslash "n"
  else if (n =? 13)%N then String backslash "r"
  else if (n =? 9)%N then String backslash "t"
  else if (n <? 32)%N then
    String backslash
      (String "u" (String "0" (String "0"
         (String (hex_digit (n / 16)) (String (hex_digit (n mod 16)) "")))))
  else String c "".

Fixpoint escape (s : string) : string :=
  match s with
  | EmptyString => EmptyString
  | String c r => escape_char c +:+ escape r
  end.

Definition quoted (s : string) : string :=
  String quote (escape s +:+ String quote "").

Definition member (key : string) (v : string) : string := quoted key +:+ ":" +:+ v.

Definition priority_name (p : TaskPriority) : string :=
  match p with high => "high" | medium => "medium" | low => "low" end.

Definition stringify_task (t : Task) : string :=
  "{" +:+ member "id" (quoted (id t))
  +:+ "," +:+ member "text" (quoted (text t))
  +:+ "," +:+ member "completed" (if completed t then "true" else "false")
  +:+ "," +:+ member "createdAt" (pretty (createdAt t))
  +:+ "," +:+ member "priority" (quoted (priority_name (priority t)))
  +:+ match dueDate t with
      | Some d => "," +:+ member "dueDate" (quoted d)
      | None => ""
      end
  +:+ "}".

Fixpoint join_comma (l : list string) : string :=
  match l with
  | [] => ""
  | [x] => x
  | x :: l' => x +:+ "," +:+ join_comma l'
  end.

Definition stringify (ts : list Task) : string :=
  "[" +:+ join_comma (stringify_task <$> ts) +:+ "]".

(** *** Parsing *)

#[warnings="-register-all"]
Inductive value : Type :=
  | VNull
  | VBool (b : bool)
  | VNum (z : Z)
  | VStr (s : string)
  | VArr (l : list value)
  | VObj (l : list (string * value)).

Definition is_ws (c : ascii) : bool :=
  let n := JS.code c in ((n =? 32) || (n =? 9) || (n =? 10) || (n =? 13))%N.

Fixpoint skip_ws (s : string) : string :=
  match s with
  | EmptyString => EmptyString
  | String c r => if is_ws c then skip_ws r else s
  end.

Definition digit_value (c : ascii) : option Z :=
  let n := Z.of_N (JS.code c) in
  if (48 <=? n) && (n <=? 57) then Some (n - 48) else None.

Definition hex_value (c : ascii) : option N :=
  let n := JS.code c in
  if ((48 <=? n) && (n <=? 57))%N then Some (n - 48)%N
  else if ((97 <=? n) && (n <=? 102))%N then Some (n - 87)%N
  else if ((65 <=? n) && (n <=? 70))%N then Some (n - 55)%N
  else None.

(** The code unit of an escape [\uXXXX], when it is below U+0100. *)
Definition unicode_escape (h1 h2 h3 h4 : ascii) : option ascii :=
  a ← hex_value h1; b ← hex_value h2; c ← hex_value h3; d ← hex_value h4;
  if ((a =? 0) && (b =? 0))%N then Some (ascii_of_N (16 * c + d)) else None.

Definition simple_escape (e : ascii) : option ascii :=
  let n := JS.code e in
  if (n =? 34)%N then Some quote
  else if (n =? 92)%N then Some backslash
  else if (n =? 47)%N then Some "/"%char
  else if (n =? 98)%N then Some (ascii_of_nat 8)
  else if (n =? 102)%N then Some (ascii_of_nat 12)
  else if (n =? 110)%N then Some (ascii_of_nat 10)
  else if (n =? 114)%N then Some (ascii_of_nat 13)
  else if (n =? 116)%N then Some (ascii_of_nat 9)
  else None.

(** The characters of a string up to its closing quote, and the rest. *)
Fixpoint parse_chars (s : string) : option (string * string) :=
  match s with
  | EmptyString => None
  | String c r =>
      let n := JS.code c in
      if (n =? 34)%N then Some (EmptyString, r)
      else if (n =? 92)%N then
        match r with
        | String e r' =>
            if (JS.code e =? 117)%N then
              match r' with
              | String h1 (String h2 (String h3 (String h4 r''))) =>
                  u ← unicode_escape h1 h2 h3 h4;
                  '(t, rest) ← parse_chars r'';
                  Some (String u t, rest)
              | _ => None
              end
            else
              u ← simple_escape e;
              '(t, rest) ← parse_chars r';
              Some (String u t, rest)
        | EmptyString => None
        end
      else if (n <? 32)%N then None
      else '(t, rest) ← parse_chars r; Some (String c t, rest)
  end.

Fixpoint parse_digits (acc : Z) (s : string) : Z * string :=
  match s with
  | EmptyString => (acc, s)
  | String c r =>
      match digit_value c with
      | Some d => parse_digits (10 * acc + d) r
      | None => (acc, s)
      end
  end.

Definition starts_fraction (s : string) : bool :=
  match s with
  | String c _ =>
      let n := JS.code c in ((n =? 46) || (n =? 101) || (n =? 69))%N
  | EmptyString => false
  end.

(** An integer: no leading zero, no fraction, no exponent. *)
Definition parse_natural (s : string) : option (Z * string) :=
  match s with
  | String c r =>
      d ← digit_value c;
      let '(z, rest) := if d =? 0 then (0, r) else parse_digits d r in
      if starts_fraction rest then None
      else match rest with
           | String c' _ =>
               match digit_value c' with
               | Some _ => None
               | None => Some (z, rest)
               end
           | EmptyString => Some (z, rest)
           end
  | EmptyString => None
  end.

Definition literal (word : string) (v : value) (s : string)
    : option (value * string) :=
  if String.prefix word s
  then Some (v, String.substring (String.length word)
                  (String.length s - String.length word) s)
  else None.

Fixpoint parse_value (fuel : nat) (s : string) {struct fuel}
    : option (value * string) :=
  match fuel with
  | O => None
  | S fuel =>
      match skip_ws s with
      | EmptyString => None
      | String c r as s' =>
          let n := JS.code c in
          if (n =? 34)%N then
            '(t, rest) ← parse_chars r; Some (VStr t, rest)
          else if (n =? 91)%N then
            match skip_ws r with
            | String c' r' =>
                if (JS.code c' =? 93)%N then Some (VArr [], r')
                else '(l, rest) ← parse_elements fuel r; Some (VArr l, rest)
            | EmptyString => None
            end
          else if (n =? 123)%N then
            match skip_ws r with
            | String c' r' =>
                if (JS.code c' =? 125)%N then Some (VObj [], r')
                else '(l, rest) ← parse_members fuel r; Some (VObj l, rest)
            | EmptyString => None
            end
          else if (n =? 45)%N then
            '(z, rest) ← parse_natural r; Some (VNum (- z), rest)
          else if ((48 <=? n) && (n <=? 57))%N then
            '(z, rest) ← parse_natural s'; Some (VNum z, rest)
          else if (n =? 116)%N then literal "true" (VBool true) s'
          else if (n =? 102)%N then literal "false" (VBool false) s'
          else if (n =? 110)%N then literal "null" VNull s'
          else None
      end
  end
with parse_elements (fuel : nat) (s : string) {struct fuel}
    : option (list value * string) :=
  match fuel with
  | O => None
  | S fuel =>
      '(v, r) ← parse_value fuel s;
      match skip_ws r with
      | String c r' =>
          if (JS.code c =? 44)%N then
            '(l, rest) ← parse_elements fuel r'; Some (v :: l, rest)
          else if (JS.code c =? 93)%N then Some ([v], r')
          else None
      | EmptyString => None
      end
  end
with parse_members (fuel : nat) (s : string) {struct fuel}
    : option (list (string * value) * string) :=
  match fuel with
  | O => None
  | S fuel =>
      match skip_ws s with
      | String q r =>
          if (JS.code q =? 34)%N then
            '(key, r1) ← parse_chars r;
            match skip_ws r1 with
            | String colon r2 =>
                if (JS.code colon =? 58)%N then
                  '(v, r3) ← parse_value fuel r2;
                  match skip_ws r3 with
                  | String c r4 =>
                      if (JS.code c =? 44)%N then
                        '(l, rest) ← parse_members fuel r4;
                        Some ((key, v) :: l, rest)
                      else if (JS.code c =? 125)%N then Some ([(key, v)], r4)
                      else None
                  | EmptyString => None
                  end
                else None
            | EmptyString => None
            end
          else None
      | EmptyString => None
      end
  end.

(** The value of a JSON text, if it is one. *)
Definition parse_text (s : string) : option value :=
  '(v, rest) ← parse_value (2 * String.length s + 2) s;
  match skip_ws rest with
  | EmptyString => Some v
  | String _ _ => None
  end.

(** The property of an object: of two members of one key the later
    counts. *)
Fixpoint property (key : string) (l : list (string * value)) : option value :=
  match l with
  | [] => None
  | (k, v) :: l' =>
      match property key l' with
      | Some v' => Some v'
      | None => if decide (k = key) then Some v else None
      end
  end.

Definition as_string (v : value) : option string :=
  match v with VStr s => Some s | _ => None end.

Definition as_priority (v : value) : option TaskPriority :=
  s ← as_string v;
  if decide (s = "high") then Some high
  else if decide (s = "medium") then Some medium
  else if decide (s = "low") then Some low
  else None.

Definition as_task (v : value) : option Task :=
  match v with
  | VObj l =>
      i ← property "id" l ≫= as_string;
      t ← property "text" l ≫= as_string;
      c ← property "completed" l ≫= (fun v => match v with VBool b => Some b | _ => None end);
      n ← property "createdAt" l ≫= (fun v => match v with VNum z => Some z | _ => None end);
      p ← property "priority" l ≫= as_priority;
      d ← match property "dueDate" l with
          | None => Some None
          | Some v => Some <$> as_string v
          end;
      Some {| id := i; text := t; completed := c; createdAt := n;
              priority := p; dueDate := d |}
  | _ => None
  end.

Definition as_tasks (v : value) : option (list Task) :=
  match v with
  | VArr l => mapM as_task l
  | _ => None
  end.

Definition parse (s : string) : outcome string (list Task) :=
  match parse_text s ≫= as_tasks with
  | Some ts => Returns ts
  | None => Throws "SyntaxError"
  end.

End JSON.

(** ** Vocabulary of the specification *)

(** A text made of white space only. *)
Fixpoint whitespace_only (s : string) : Prop :=
  match s with
  | EmptyString => True
  | String c r => JS.isWhiteSpace c = true /\ whitespace_only r
  end.

(** [d] is the letter [c] in lower or in upper case, for a lower-case
    letter [c] of a-z. *)
Definition same_letter (c d : ascii) : Prop :=
  d = c \/ ((97 <= JS.code c <= 122)%N /\ (JS.code d + 32 = JS.code c)%N).

(** [s] spells the lower-case word [word] in some letter case. *)
Fixpoint in_any_case (word s : string) : Prop :=
  match word, s with
  | EmptyString, EmptyString => True
  | String c word', String d s' => same_letter c d /\ in_any_case word' s'
  | _, _ => False
  end.

(** The trimmed, case-folded text by which [addTask] compares. *)
Definition folded (s : string) : string := JS.toLowerCase (JS.trim s).

(** Some task of the collection has the same trimmed, case-folded text. *)
Definition duplicate_of (input : string) (ts : list Task) : Prop :=
  exists t, t ∈ ts /\ folded (text t) = folded input.

(** The data model of the specification: no task has a blank text. *)
Definition texts_nonblank (ts : list Task) : Prop :=
  Forall (fun t => JS.trim (text t) <> "") ts.

(** One step of [toggleTask] on a task. *)
Definition toggled (id' : string) (task : Task) : Task :=
  if decide (id task = id')
  then {| id := id task; text := text task;
          completed := negb (completed task);
          createdAt := createdAt task; priority := priority task;
          dueDate := dueDate task |}
  else task.

(** The five outcomes of [addTask]. *)
Inductive add_outcome (input : string) (st : AppState) : Prop :=
  | add_blank : JS.trim input = "" -> add_outcome input st
  | add_admin : JS.trim input <> "" -> folded input = "admin" -> add_outcome input st
  | add_unadmin : JS.trim input <> "" -> folded input = "unadmin" -> add_outcome input st
  | add_dup : JS.trim input <> "" -> folded input <> "admin" ->
      folded input <> "unadmin" -> duplicate_of input (tasks st) ->
      add_outcome input st
  | add_new : JS.trim input <> "" -> folded input <> "admin" ->
      folded input <> "unadmin" -> ~ duplicate_of input (tasks st) ->
      add_outcome input st.

(** [a] may be displayed before [b]: a smaller priority rank, or the same
    rank and [a] not older than [b]. *)
Definition sorts_before (a b : Task) : Prop :=
  priorityOrder (priority a) < priorityOrder (priority b)
  \/ (priorityOrder (priority a) = priorityOrder (priority b)
      /\ createdAt b <= createdAt a).

(** Tasks that the comparator of [sortedTasks] does not tell apart. *)
Definition same_rank (a b : Task) : Prop :=
  priority a = priority b /\ createdAt a = createdAt b.

#[global] Instance same_rank_dec a b : Decision (same_rank a b).
Proof. unfold same_rank. apply _. Defined.

(** The task is not completed and its due date, a non-empty text, parses
    to a time strictly before [now]. *)
Definition overdue_at (Date_parse : string -> option Z) (now : Z) (t : Task)
    : Prop :=
  completed t = false
  /\ exists d z, dueDate t = Some d /\ d <> "" /\ Date_parse d = Some z /\ z < now.

(** [a] may stand before [b] in the overdue list: a smaller priority
    rank, or the same rank and [a] due no later than [b]. *)
Definition due_before (Date_parse : string -> option Z) (a b : Task) : Prop :=
  priorityOrder (priority a) < priorityOrder (priority b)
  \/ (priorityOrder (priority a) = priorityOrder (priority b)
      /\ exists x y, dueTime Date_parse a = Some x
                     /\ dueTime Date_parse b = Some y /\ x <= y).

(** The percentage of the specification for [C] completed upcoming tasks
    among [U] upcoming and [O] overdue ones, rounding a half upwards:
    [round (100 * C / (U + O))] is [floor ((200 * C + (U + O)) / (2 * (U + O)))]. *)
Definition spec_percentage (U O C : nat) : Z :=
  let n := Z.of_nat (U + O) in
  if n =? 0 then 100 else (200 * Z.of_nat C + n) `div` (2 * n).

(** The Number computed on line 150 for [c] completed among [n] tasks. *)
Definition rounded_ratio (c n : nat) : option Z :=
  JS.Math_round (JS.mul (JS.div (JS.of_nat c) (JS.of_nat n)) (JS.of_nat 100)).

(** No two tasks have the same trimmed, case-folded text. *)
Definition texts_unique (ts : list Task) : Prop :=
  NoDup ((fun t => folded (text t)) <$> ts).

(** No two tasks have the same identifier. *)
Definition ids_unique (ts : list Task) : Prop := NoDup (id <$> ts).

(** A word of the letters a-z. *)
Fixpoint lowercase_word (w : string) : Prop :=
  match w with
  | EmptyString => True
  | String c r => (97 <= JS.code c <= 122)%N /\ lowercase_word r
  end.

(** The number of completed tasks of a collection. *)
Definition completed_count (ts : list Task) : nat :=
  length (filter (fun t => completed t = true) ts).

(** The host has [matchMedia] and reports a preference for dark. *)
Definition prefers_dark (matchMedia : option (string -> bool)) : bool :=
  match matchMedia with
  | Some matches => matches "(prefers-color-scheme: dark)"
  | None => false
  end.

(** A storage that holds [v] under the key [theme] and nothing else. *)
Definition storage_with_theme (v : string) (key : string) : option string :=
  if decide (key = "theme") then Some v else None.

(** Tasks that the comparator of the overdue list does not tell apart. *)
Definition same_due (Date_parse : string -> option Z) (a b : Task) : Prop :=
  priority a = priority b /\ dueTime Date_parse a = dueTime Date_parse b.

#[global] Instance same_due_dec Date_parse a b : Decision (same_due Date_parse a b).
Proof. unfold same_due. apply _. Defined.

(** The user's actions on the collection: a submitted input, with the
    identifier and the time the handler draws, a toggle and a deletion. *)
Inductive action : Type :=
  | Add (uuid : string) (now : Z) (text' : string) (priority' : TaskPriority)
        (dueDate' : option string)
  | Toggle (id' : string)
  | Delete (id' : string).

Definition handle (st : AppState) (a : action) : AppState :=
  match a with
  | Add uuid now text' priority' dueDate' =>
      addTask uuid now text' priority' dueDate' st
  | Toggle id' => toggleTask id' st
  | Delete id' => deleteTask id' st
  end.

(** The state after a sequence of actions. *)
Definition run (actions : list action) (st : AppState) : AppState :=
  fold_left handle actions st.

(** The identifiers drawn by the submissions of a sequence of actions. *)
Definition drawn_ids (actions : list action) : list string :=
  actions ≫= fun a => match a with Add uuid _ _ _ _ => [uuid] | _ => [] end.

(** The state of a start with nothing saved. *)
Definition fresh_start : AppState :=
  {| tasks := []; notification := None; isAdmin := false |}.

(** ** Sample data *)

(** A collection saved with a task whose text is blank, and the state
    started from it. *)
Definition blank_task : Task :=
  {| id := "7f3c"; text := " "; completed := false; createdAt := 1700000000000;
     priority := medium; dueDate := None |}.
Definition blank_store : AppState :=
  {| tasks := [blank_task]; notification := None; isAdmin := false |}.

(** Three saved tasks due on 2024-01-01 or without due date, seen at
    2024-01-02T00:00Z. *)
Definition rent_task : Task :=
  {| id := "a"; text := "pay rent"; completed := false; createdAt := 1703000000000;
     priority := high; dueDate := Some "2024-01-01" |}.
Definition paid_task : Task :=
  {| id := "b"; text := "pay phone"; completed := true; createdAt := 1703000000001;
     priority := high; dueDate := Some "2024-01-01" |}.
Definition free_task : Task :=
  {| id := "c"; text := "read"; completed := false; createdAt := 1703000000002;
     priority := low; dueDate := None |}.
Definition jan2 : Z := 1704153600000.

(** A saved collection: the three tasks above and one whose text holds a
    quote, a backslash and a line feed. *)
Definition quoting_task : Task :=
  {| id := "e"; text := "say " +:+ String JSON.quote ("hi" +:+ String JSON.quote
                  (" " +:+ String JSON.backslash (String (ascii_of_nat 10) "o/")));
     completed := true; createdAt := 1703000000003;
     priority := medium; dueDate := Some "2024-03-01" |}.
Definition saved_tasks : list Task :=
  [quoting_task; rent_task; paid_task; free_task].

(** The four tasks of the sorting example. *)
Definition low_100 : Task :=
  {| id := "1"; text := "w"; completed := false; createdAt := 100;
     priority := low; dueDate := None |}.
Definition high_200 : Task :=
  {| id := "2"; text := "x"; completed := false; createdAt := 200;
     priority := high; dueDate := None |}.
Definition medium_300 : Task :=
  {| id := "3"; text := "y"; completed := false; createdAt := 300;
     priority := medium; dueDate := None |}.
Definition high_400 : Task :=
  {| id := "4"; text := "z"; completed := false; createdAt := 400;
     priority := high; dueDate := None |}.

(** [n] saved tasks without due date, the first [c] of them completed. *)
Definition plain_task (c k : nat) : Task :=
  {| id := "id-" +:+ pretty k; text := "task " +:+ pretty k;
     completed := bool_decide (k < c)%nat;
     createdAt := 1700000000000 + Z.of_nat k;
     priority := medium; dueDate := None |}.
Definition plain_tasks (c n : nat) : list Task := plain_task c <$> seq 0 n.

(** An instance of [JSON.parse] for the examples: it reads the text of
    the empty array, and throws a syntax error on the other texts used
    below (the empty text and a cut-off object), none of which is JSON. *)
Definition JSON_parse_sample (s : string) : outcome string (list Task) :=
  if decide (s = "[]") then Returns [] else Throws "SyntaxError".

(** A storage that holds [v] under the key [tasks] and nothing else. *)
Definition storage_with (v : string) (key : string) : option string :=
  if decide (key = "tasks") then Some v else None.

Definition load_message : string := "Could not parse tasks from localStorage".

(** [100 * c / n] lies exactly halfway between two integers. *)
Definition exact_half (c n : nat) : bool :=
  (200 * Z.of_nat c) `mod` (2 * Z.of_nat n) =? Z.of_nat n.

(** Line 150 computes the specified percentage for [c] completed among
    [n] tasks. *)
Definition agrees (c n : nat) : bool :=
  bool_decide (rounded_ratio c n = Some (spec_percentage n 0 c)).

(** Line 150 computes the specified percentage, or one less when the
    exact percentage is halfway between two integers. *)
Definition agrees_but_half (c n : nat) : bool :=
  agrees c n
  || exact_half c n
     && bool_decide (rounded_ratio c n = Some (spec_percentage n 0 c - 1)).

(** A check for every number of tasks from 1 to [bound] and every number
    of completed ones. *)
Definition check_upto (check : nat -> nat -> bool) (bound : nat) : bool :=
  forallb (fun n => forallb (fun c => check c (S n)) (seq 0 (S (S n))))
          (seq 0 bound).

(** ** Facts about the primitives *)
Module JSFacts.
Import JS.

(** *** Sorting *)
Section SortFacts.
Context {A : Type} (comparefn : A -> A -> option Z).

Lemma sort_insert_perm x l : sort_insert comparefn x l ≡ₚ x :: l.
Proof.
  induction l as [|y l IH]; simpl; [done|].
  destruct (SortCompare comparefn x y <=? 0); [done|].
  rewrite IH. apply Permutation_swap.
Qed.

Lemma Array_sort_perm l : Array_sort comparefn l ≡ₚ l.
Proof.
  induction l as [|x l IH]; simpl; [done|].
  by rewrite sort_insert_perm, IH.
Qed.

Lemma sort_insert_nil x : sort_insert comparefn x [] = [x].
Proof. reflexivity. Qed.

Lemma sort_insert_le x y l :
  SortCompare comparefn x y <= 0 -> sort_insert comparefn x (y :: l) = x :: y :: l.
Proof.
  intros H. simpl.
  destruct (Z.leb_spec (SortCompare comparefn x y) 0); [done|lia].
Qed.

Lemma sort_insert_gt x y l :
  0 < SortCompare comparefn x y ->
  sort_insert comparefn x (y :: l) = y :: sort_insert comparefn x l.
Proof.
  intros H. simpl.
  destruct (Z.leb_spec (SortCompare comparefn x y) 0); [lia|done].
Qed.

Hypothesis cmp_total : forall x y, cmp_le comparefn x y \/ cmp_le comparefn y x.

Lemma sort_insert_HdRel x a l :
  cmp_le comparefn a x -> HdRel (cmp_le comparefn) a l ->
  HdRel (cmp_le comparefn) a (sort_insert comparefn x l).
Proof.
  intros Hax Hal. destruct l as [|y l]; simpl; [by constructor|].
  destruct (SortCompare comparefn x y <=? 0); constructor; [done|].
  by inversion Hal.
Qed.

Lemma sort_insert_Sorted x l :
  Sorted (cmp_le comparefn) l ->
  Sorted (cmp_le comparefn) (sort_insert comparefn x l).
Proof.
  induction 1 as [|y l Hs IH Hd]; simpl; [repeat constructor|].
  destruct (SortCompare comparefn x y <=? 0) eqn:Hxy.
  - constructor; [by constructor|]. constructor. unfold cmp_le. lia.
  - constructor; [done|]. apply sort_insert_HdRel; [|done].
    destruct (cmp_total x y) as [H|H]; [|done]. unfold cmp_le in H. lia.
Qed.

Lemma Array_sort_Sorted l : Sorted (cmp_le comparefn) (Array_sort comparefn l).
Proof. induction l; simpl; [constructor|by apply sort_insert_Sorted]. Qed.
End SortFacts.

End JSFacts.

(** *** Facts about strings *)
Module StringFacts.
Import JS.

Lemma trimStart_ws s : whitespace_only s -> trimStart s = "".
Proof. induction s as [|c r IH]; simpl; [done|]. intros [-> ?]. auto. Qed.

Lemma trimEnd_ws s : whitespace_only s -> trimEnd s = "".
Proof.
  induction s as [|c r IH]; simpl; [done|]. intros [-> Hr]. by rewrite (IH Hr).
Qed.

Lemma trimStart_app_ws pre s :
  whitespace_only pre -> trimStart (pre +:+ s) = trimStart s.
Proof. induction pre as [|c r IH]; simpl; [done|]. intros [-> ?]. auto. Qed.

Lemma trimEnd_app_ws s post :
  whitespace_only post -> trimEnd (s +:+ post) = trimEnd s.
Proof.
  intros Hp. induction s as [|c r IH]; simpl; [by apply trimEnd_ws|].
  by rewrite IH.
Qed.

(** White space around a text that starts and ends with other characters
    is what [trim] removes. *)
Lemma trim_surrounded pre body post :
  whitespace_only pre -> whitespace_only post ->
  trimStart body = body -> trimEnd body = body ->
  body <> "" ->
  trim (pre +:+ body +:+ post) = body.
Proof.
  intros Hpre Hpost Hs He Hne. unfold trim.
  rewrite trimStart_app_ws by done.
  assert (trimStart (body +:+ post) = body +:+ post) as ->.
  { destruct body as [|c r]; [done|]. simpl in *.
    destruct (isWhiteSpace c) eqn:Hc; [|done].
    exfalso. clear -Hs. assert (String.length (trimStart r) <= String.length r)%nat as Hl.
    { clear. induction r as [|c r IH]; simpl; [lia|].
      destruct (isWhiteSpace c); simpl; lia. }
    rewrite Hs in Hl. simpl in Hl. lia. }
  by rewrite trimEnd_app_ws.
Qed.

(** [trim] takes white space, and nothing else, from both ends. *)
Lemma trimStart_decompose s :
  exists pre, whitespace_only pre /\ s = pre +:+ trimStart s.
Proof.
  induction s as [|c r (pre & Hpre & Hr)]; [by exists ""|]. simpl.
  destruct (isWhiteSpace c) eqn:Hc; [|by exists ""].
  exists (String c pre). split; [done|].
  change (String c r = String c (pre +:+ trimStart r)). by f_equal.
Qed.

Lemma trimEnd_decompose s :
  exists post, whitespace_only post /\ s = trimEnd s +:+ post.
Proof.
  induction s as [|c r (post & Hpost & Hr)]; [by exists ""|]. simpl.
  destruct (trimEnd r) as [|c' r'] eqn:Hr'.
  - change (r = post) in Hr. subst r. destruct (isWhiteSpace c) eqn:Hc.
    + by exists (String c post).
    + by exists post.
  - exists post. split; [done|].
    change (String c r = String c (String c' r' +:+ post)). by f_equal.
Qed.

Lemma trim_decompose s :
  exists pre post,
    whitespace_only pre /\ whitespace_only post /\ s = pre +:+ trim s +:+ post.
Proof.
  destruct (trimStart_decompose s) as (pre & Hpre & Hs).
  destruct (trimEnd_decompose (trimStart s)) as (post & Hpost & Ht).
  exists pre, post. unfold trim. by rewrite <- Ht.
Qed.

Lemma trimStart_fixed s : trimStart (trimStart s) = trimStart s.
Proof.
  induction s as [|c r IH]; simpl; [done|].
  destruct (isWhiteSpace c) eqn:Hc; [done|]. simpl. by rewrite Hc.
Qed.

Lemma trimEnd_fixed s : trimEnd (trimEnd s) = trimEnd s.
Proof.
  induction s as [|c r IH]; simpl; [done|].
  destruct (trimEnd r) as [|c' r'] eqn:Hr.
  - destruct (isWhiteSpace c) eqn:Hc; simpl; [done|]. by rewrite Hc.
  - change (trimEnd (String c (String c' r')) = String c (String c' r')).
    simpl in IH |- *. by rewrite IH.
Qed.

Lemma trimStart_trimEnd s :
  trimStart s = s -> trimStart (trimEnd s) = trimEnd s.
Proof.
  destruct s as [|c r]; simpl; [done|].
  destruct (isWhiteSpace c) eqn:Hc.
  - intros Hs. exfalso.
    assert (String.length (trimStart r) <= String.length r)%nat as Hl.
    { clear. induction r as [|c r IH]; simpl; [lia|].
      destruct (isWhiteSpace c); simpl; lia. }
    rewrite Hs in Hl. simpl in Hl. lia.
  - intros _. destruct (trimEnd r); simpl; by rewrite Hc.
Qed.

Lemma trim_fixed s : trim (trim s) = trim s.
Proof.
  unfold trim. rewrite trimStart_trimEnd by apply trimStart_fixed.
  apply trimEnd_fixed.
Qed.

Lemma toLowerCase_empty s : toLowerCase s = "" -> s = "".
Proof. by destruct s. Qed.

Lemma same_letter_cases c d :
  same_letter c d -> d = c \/ d = ascii_of_N (code c - 32).
Proof.
  intros [->|[Hc Hd]]; [by left|right].
  rewrite <- (ascii_N_embedding d). f_equal. unfold code in *. lia.
Qed.

Lemma in_any_case_cons c word s :
  in_any_case (String c word) s ->
  exists d s', s = String d s' /\ (d = c \/ d = ascii_of_N (code c - 32))
               /\ in_any_case word s'.
Proof.
  destruct s as [|d s']; simpl; [done|]. intros [L H].
  exists d, s'. eauto using same_letter_cases.
Qed.

Lemma in_any_case_nil s : in_any_case "" s -> s = "".
Proof. by destruct s. Qed.

Ltac split_word H :=
  repeat (apply in_any_case_cons in H;
          destruct H as (? & ? & -> & [->| ->] & H));
  apply in_any_case_nil in H; subst.

Lemma admin_in_any_case s :
  in_any_case "admin" s ->
  toLowerCase s = "admin" /\ trimStart s = s /\ trimEnd s = s /\ s <> "".
Proof. intros H. split_word H; vm_compute; by repeat split. Qed.

Lemma unadmin_in_any_case s :
  in_any_case "unadmin" s ->
  toLowerCase s = "unadmin" /\ trimStart s = s /\ trimEnd s = s /\ s <> "".
Proof. intros H. split_word H; vm_compute; by repeat split. Qed.

End StringFacts.

(** ** The handlers: lemmas *)

Lemma toggleTask_tasks i st : tasks (toggleTask i st) = toggled i <$> tasks st.
Proof. reflexivity. Qed.

Lemma toggled_toggled i t : toggled i (toggled i t) = t.
Proof.
  unfold toggled. destruct (decide (id t = i)) as [E|E]; simpl.
  - rewrite decide_True by done. destruct t; simpl. by rewrite negb_involutive.
  - by rewrite decide_False.
Qed.

Lemma toggled_other i t : id t <> i -> toggled i t = t.
Proof. unfold toggled. intros H. by rewrite decide_False. Qed.

Lemma toggled_frame i t :
  id (toggled i t) = id t /\ text (toggled i t) = text t /\
  createdAt (toggled i t) = createdAt t /\
  priority (toggled i t) = priority t /\ dueDate (toggled i t) = dueDate t.
Proof. unfold toggled. by destruct (decide (id t = i)). Qed.

Lemma toggled_match i t : id t = i -> completed (toggled i t) = negb (completed t).
Proof. unfold toggled. intros H. by rewrite decide_True. Qed.

Lemma Exists_duplicate input ts :
  Exists (fun task => folded (text task) = folded input) ts
  <-> duplicate_of input ts.
Proof. rewrite Exists_exists. reflexivity. Qed.

(** The guards of [addTask] one after the other. *)
Lemma addTask_blank uuid now input p d st :
  JS.trim input = "" -> addTask uuid now input p d st = st.
Proof. unfold addTask. intros H. by rewrite decide_True. Qed.

Lemma addTask_admin uuid now input p d st :
  JS.trim input <> "" -> folded input = "admin" ->
  addTask uuid now input p d st
  = {| tasks := tasks st; notification := Some MsgAdminEnabled; isAdmin := true |}.
Proof.
  unfold addTask, folded. intros Hne Ha.
  rewrite decide_False by done. by rewrite decide_True.
Qed.

Lemma addTask_unadmin uuid now input p d st :
  JS.trim input <> "" -> folded input = "unadmin" ->
  addTask uuid now input p d st
  = {| tasks := tasks st; notification := Some MsgAdminDisabled; isAdmin := false |}.
Proof.
  unfold addTask, folded. intros Hne Hu.
  rewrite decide_False by done. rewrite decide_False by by rewrite Hu.
  by rewrite decide_True.
Qed.

Lemma addTask_duplicate uuid now input p d st :
  JS.trim input <> "" -> folded input <> "admin" -> folded input <> "unadmin" ->
  duplicate_of input (tasks st) ->
  addTask uuid now input p d st
  = {| tasks := tasks st; notification := Some MsgTaskExists; isAdmin := isAdmin st |}.
Proof.
  unfold addTask. intros Hne Ha Hu Hd.
  rewrite !decide_False by done. rewrite decide_True; [done|].
  by apply Exists_duplicate.
Qed.

Lemma addTask_creates uuid now input p d st :
  JS.trim input <> "" -> folded input <> "admin" -> folded input <> "unadmin" ->
  ~ duplicate_of input (tasks st) ->
  addTask uuid now input p d st
  = {| tasks := {| id := uuid; text := JS.trim input; completed := false;
                   createdAt := now; priority := p;
                   dueDate := if JS.truthy d then d else None |} :: tasks st;
       notification := notification st; isAdmin := isAdmin st |}.
Proof.
  unfold addTask. intros Hne Ha Hu Hd.
  rewrite !decide_False by done. rewrite decide_False; [done|].
  by rewrite <- Exists_duplicate in Hd.
Qed.

Lemma addTask_cases input st : add_outcome input st.
Proof.
  destruct (decide (JS.trim input = "")); [by constructor 1|].
  destruct (decide (folded input = "admin")); [by constructor 2|].
  destruct (decide (folded input = "unadmin")); [by constructor 3|].
  destruct (decide (Exists (fun task => folded (text task) = folded input)
                           (tasks st))) as [H|H];
    rewrite Exists_duplicate in H; [by constructor 4|by constructor 5].
Qed.

(** The handlers keep the data model: [addTask] stores a trimmed text
    that is not empty. *)
Lemma handlers_keep_texts_nonblank st :
  texts_nonblank (tasks st) ->
  (forall uuid now input p d, texts_nonblank (tasks (addTask uuid now input p d st)))
  /\ (forall i, texts_nonblank (tasks (toggleTask i st)))
  /\ (forall i, texts_nonblank (tasks (deleteTask i st))).
Proof.
  unfold texts_nonblank. intros Hst. split; [|split].
  - intros uuid now input p d.
    destruct (addTask_cases input st) as [?|? Ha|? Hu|? Ha Hu ?|? ? ? ?].
    + by rewrite addTask_blank.
    + by rewrite addTask_admin.
    + by rewrite addTask_unadmin.
    + by rewrite addTask_duplicate.
    + rewrite addTask_creates by done. simpl. constructor; [|done].
      simpl. by rewrite StringFacts.trim_fixed.
  - intros i. rewrite toggleTask_tasks, Forall_fmap.
    eapply Forall_impl; [exact Hst|]. intros t Ht. simpl.
    by destruct (toggled_frame i t) as (_ & -> & _).
  - intros i. unfold deleteTask, setTasks; simpl.
    rewrite Forall_forall in Hst |- *. intros t Ht.
    apply list_elem_of_filter in Ht as [_ Ht]. auto.
Qed.

(** In a collection of the data model a duplicate is never blank, so
    there the rejection needs no condition on the input. *)
Lemma duplicate_nonblank input ts :
  texts_nonblank ts -> duplicate_of input ts -> JS.trim input <> "".
Proof.
  unfold texts_nonblank. rewrite Forall_forall.
  intros Hts (t & Ht & Hf) Hblank. apply (Hts t Ht).
  unfold folded in Hf. rewrite Hblank in Hf.
  by apply StringFacts.toLowerCase_empty.
Qed.

(** ** The handlers: properties *)

(** The condition on the collection is needed: were a task of blank
    text saved, a blank input would have the same trimmed, case-folded
    text, and [addTask] returns at its first guard without a
    notification. *)
Lemma addTask_blank_duplicate_is_silent :
  ~ (duplicate_of "  " (tasks blank_store) ->
     let st' := addTask "a1" 1700000000001 "  " low None blank_store in
     tasks st' = tasks blank_store /\ exists m, notification st' = Some m).
Proof.
  intros H. destruct H as (_ & m & Hm).
  - exists blank_task. split; [apply list_elem_of_here|reflexivity].
  - vm_compute in Hm. discriminate.
Qed.

(** An input that is not blank and duplicates a task is rejected. *)
Lemma addTask_rejects_nonblank_duplicate uuid now input p d st :
  JS.trim input <> "" ->
  duplicate_of input (tasks st) ->
  let st' := addTask uuid now input p d st in
  tasks st' = tasks st
  /\ (exists m, notification st' = Some m)
  /\ (folded input <> "admin" -> folded input <> "unadmin" ->
      notification st' = Some MsgTaskExists /\ isAdmin st' = isAdmin st).
Proof.
  intros Hne Hdup st'. subst st'.
  destruct (addTask_cases input st) as [?|? Ha|? Hu|? Ha Hu ?|? ? ? ?]; try done.
  - rewrite addTask_admin by done. simpl.
    split; [done|]. split; [by eexists|]. by intros.
  - rewrite addTask_unadmin by done. simpl.
    split; [done|]. split; [by eexists|]. by intros.
  - rewrite addTask_duplicate by done. simpl.
    split; [done|]. split; [by eexists|]. by intros.
Qed.

(** C3. For every task collection of the data model, where no task has
    a blank text, and every input whose trimmed, case-folded text equals
    that of a task of the collection, [addTask] leaves the collection
    unchanged and sets a notification; unless the input is one of the two
    reserved commands, the notification is the one for an existing task
    and nothing else changes. *)
Theorem addTask_rejects_duplicate uuid now input p d st :
  texts_nonblank (tasks st) ->
  duplicate_of input (tasks st) ->
  let st' := addTask uuid now input p d st in
  tasks st' = tasks st
  /\ (exists m, notification st' = Some m)
  /\ (folded input <> "admin" -> folded input <> "unadmin" ->
      notification st' = Some MsgTaskExists /\ isAdmin st' = isAdmin st).
Proof.
  intros Hnb Hdup. apply addTask_rejects_nonblank_duplicate; [|done].
  by apply (duplicate_nonblank input (tasks st)).
Qed.

Lemma addTask_rejects_duplicate_witness :
  let st := {| tasks := [ {| id := "7f3c"; text := "Buy milk"; completed := false;
                             createdAt := 1700000000000; priority := medium;
                             dueDate := None |} ];
               notification := None; isAdmin := false |} in
  let st' := addTask "a1" 1700000000001 "  buy MILK " low None st in
  tasks st' = tasks st
  /\ (exists m, notification st' = Some m)
  /\ (folded "  buy MILK " <> "admin" -> folded "  buy MILK " <> "unadmin" ->
      notification st' = Some MsgTaskExists /\ isAdmin st' = isAdmin st).
Proof.
  intros st.
  apply (addTask_rejects_duplicate "a1" 1700000000001 "  buy MILK " low None st).
  - repeat constructor. vm_compute. discriminate.
  - eexists. split; [apply list_elem_of_here|]. vm_compute. reflexivity.
Defined.

(** C5. An input whose trimmed text is the word [admin] in any letter
    case sets the admin flag, sets a notification and leaves the
    collection as it is; the word [unadmin] clears the flag likewise.
    Such are the inputs made of the word between white space. *)
Theorem addTask_reserved_commands uuid now input p d st :
  (in_any_case "admin" (JS.trim input) ->
   addTask uuid now input p d st
   = {| tasks := tasks st; notification := Some MsgAdminEnabled; isAdmin := true |})
  /\ (in_any_case "unadmin" (JS.trim input) ->
   addTask uuid now input p d st
   = {| tasks := tasks st; notification := Some MsgAdminDisabled; isAdmin := false |})
  /\ (forall pre body post,
        whitespace_only pre -> whitespace_only post ->
        in_any_case "admin" body \/ in_any_case "unadmin" body ->
        input = pre +:+ body +:+ post -> JS.trim input = body).
Proof.
  split; [|split].
  - intros Hb. apply StringFacts.admin_in_any_case in Hb as (Hl & _ & _ & Hne).
    by apply addTask_admin.
  - intros Hb. apply StringFacts.unadmin_in_any_case in Hb as (Hl & _ & _ & Hne).
    by apply addTask_unadmin.
  - intros pre body post Hpre Hpost Hb ->.
    destruct Hb as [Hb|Hb];
      [apply StringFacts.admin_in_any_case in Hb as (_ & Hs & He & Hne)
      |apply StringFacts.unadmin_in_any_case in Hb as (_ & Hs & He & Hne)];
      by apply StringFacts.trim_surrounded.
Qed.

Ltac letter_case :=
  first [ left; reflexivity
        | right; unfold JS.code; simpl; lia ].

Lemma addTask_reserved_commands_witness :
  let st := {| tasks := [blank_task]; notification := None; isAdmin := false |} in
  addTask "a1" 1700000000001 "  AdMiN " high (Some "2024-05-01") st
  = {| tasks := [blank_task]; notification := Some MsgAdminEnabled; isAdmin := true |}
  /\ addTask "a1" 1700000000001 "  UNadmin " high (Some "2024-05-01") st
  = {| tasks := [blank_task]; notification := Some MsgAdminDisabled; isAdmin := false |}
  /\ JS.trim "  AdMiN " = "AdMiN".
Proof.
  intros st. split; [|split].
  - apply (proj1 (addTask_reserved_commands "a1" 1700000000001 "  AdMiN "
                    high (Some "2024-05-01") st)).
    simpl. repeat split; letter_case.
  - apply (proj1 (proj2 (addTask_reserved_commands "a1" 1700000000001 "  UNadmin "
                    high (Some "2024-05-01") st))).
    simpl. repeat split; letter_case.
  - apply (proj2 (proj2 (addTask_reserved_commands "a1" 1700000000001 "  AdMiN "
                    high (Some "2024-05-01") st)) "  " "AdMiN" " ").
    + simpl. tauto.
    + simpl. tauto.
    + left. simpl. repeat split; letter_case.
    + reflexivity.
Defined.

(** C6. Toggling the same id twice gives back the state, so every task
    has its completion flag again; one toggle keeps the number of tasks;
    and toggling an id that no task has changes nothing. *)
Theorem toggleTask_twice i st :
  toggleTask i (toggleTask i st) = st
  /\ completed <$> tasks (toggleTask i (toggleTask i st)) = completed <$> tasks st
  /\ length (tasks (toggleTask i st)) = length (tasks st)
  /\ ((forall t, t ∈ tasks st -> id t <> i) -> toggleTask i st = st).
Proof.
  assert (toggleTask i (toggleTask i st) = st) as Htwice.
  { destruct st as [ts n a]. unfold toggleTask, setTasks; simpl. f_equal.
    fold (toggled i). rewrite <- list_fmap_compose.
    rewrite <- (list_fmap_id ts) at 2. apply list_fmap_ext.
    intros ? t _. apply toggled_toggled. }
  split; [done|]. split; [by rewrite Htwice|]. split.
  - by rewrite toggleTask_tasks, length_fmap.
  - intros Hno. destruct st as [ts n a]. unfold toggleTask, setTasks; simpl in *.
    f_equal. fold (toggled i). rewrite <- (list_fmap_id ts) at 2.
    apply list_fmap_ext. intros k t Hk. apply toggled_other, Hno.
    by eapply list_elem_of_lookup_2.
Qed.

Lemma toggleTask_twice_witness :
  let t1 := {| id := "a"; text := "one"; completed := false; createdAt := 10;
               priority := low; dueDate := None |} in
  let t2 := {| id := "b"; text := "two"; completed := true; createdAt := 20;
               priority := high; dueDate := Some "2024-05-01" |} in
  let st := {| tasks := [t1; t2]; notification := None; isAdmin := false |} in
  toggleTask "c" st = st.
Proof.
  intros t1 t2 st.
  apply (proj2 (proj2 (proj2 (toggleTask_twice "c" st)))).
  intros t Ht. apply list_elem_of_In in Ht.
  destruct Ht as [<-|[<-|[]]]; simpl; discriminate.
Defined.

(** C9. [toggleTask] keeps the positions: the task at each position
    keeps every field but [completed], is unchanged altogether when its id
    differs, and has [completed] negated when its id matches.
    [deleteTask] keeps, in their order and as they were, the tasks whose
    id differs, and drops the others.  Neither touches the rest of the
    state. *)
Theorem toggle_delete_frame i st :
  (length (tasks (toggleTask i st)) = length (tasks st)
   /\ forall k t, tasks st !! k = Some t ->
      exists t', tasks (toggleTask i st) !! k = Some t'
        /\ id t' = id t /\ text t' = text t /\ createdAt t' = createdAt t
        /\ priority t' = priority t /\ dueDate t' = dueDate t
        /\ (id t <> i -> t' = t)
        /\ (id t = i -> completed t' = negb (completed t)))
  /\ (tasks (deleteTask i st) `sublist_of` tasks st
      /\ (forall t, t ∈ tasks (deleteTask i st) <-> t ∈ tasks st /\ id t <> i)
      /\ length (tasks (deleteTask i st))
           + length (filter (fun t => id t = i) (tasks st))
         = length (tasks st))%nat
  /\ notification (toggleTask i st) = notification st
  /\ isAdmin (toggleTask i st) = isAdmin st
  /\ notification (deleteTask i st) = notification st
  /\ isAdmin (deleteTask i st) = isAdmin st.
Proof.
  split; [|split; [|done]].
  - rewrite toggleTask_tasks, length_fmap. split; [done|].
    intros k t Hk. exists (toggled i t). rewrite list_lookup_fmap, Hk.
    destruct (toggled_frame i t) as (? & ? & ? & ? & ?).
    repeat split; try done; [apply toggled_other|apply toggled_match].
  - unfold deleteTask, setTasks; simpl. split; [apply sublist_filter|]. split.
    + intros t. rewrite list_elem_of_filter. tauto.
    + rewrite <- (length_app _ _).
      rewrite <- (filter_app_complement (fun t => id t = i) (tasks st)) at 3.
      rewrite !length_app. lia.
Qed.

Lemma toggle_delete_frame_witness :
  let t1 := {| id := "a"; text := "one"; completed := false; createdAt := 10;
               priority := low; dueDate := None |} in
  let t2 := {| id := "b"; text := "two"; completed := true; createdAt := 20;
               priority := high; dueDate := Some "2024-05-01" |} in
  let st := {| tasks := [t1; t2]; notification := None; isAdmin := false |} in
  exists t', tasks (toggleTask "b" st) !! 1%nat = Some t'
    /\ id t' = "b" /\ text t' = "two" /\ createdAt t' = 20
    /\ priority t' = high /\ dueDate t' = Some "2024-05-01"
    /\ (id t2 <> "b" -> t' = t2)
    /\ (id t2 = "b" -> completed t' = negb (completed t2)).
Proof.
  intros t1 t2 st.
  apply (proj2 (proj1 (toggle_delete_frame "b" st)) 1%nat t2). reflexivity.
Defined.

(** ** The views: vocabulary *)

(** ** The views: lemmas *)

Section SortStable.
Import JS.
Context {A : Type} (comparefn : A -> A -> option Z).
(** A class [E e] of elements that compare equal among themselves. *)
Context (E : A -> Prop) `{!forall x, Decision (E x)}.
Hypothesis E_le : forall x y, E x -> E y -> SortCompare comparefn x y <= 0.

Lemma sort_insert_filter_in x l :
  E x -> filter E (sort_insert comparefn x l) = x :: filter E l.
Proof.
  intros Hx. induction l as [|y l IH]; simpl.
  - by rewrite filter_cons_True.
  - destruct (SortCompare comparefn x y <=? 0) eqn:Hxy.
    + by rewrite (filter_cons_True _ x).
    + assert (~ E y) by (intros Hy; specialize (E_le x y Hx Hy); lia).
      by rewrite !(filter_cons_False _ y).
Qed.

Lemma sort_insert_filter_out x l :
  ~ E x -> filter E (sort_insert comparefn x l) = filter E l.
Proof.
  intros Hx. induction l as [|y l IH]; simpl.
  - by rewrite filter_cons_False.
  - destruct (SortCompare comparefn x y <=? 0).
    + by rewrite (filter_cons_False _ x).
    + rewrite !(filter_cons _ y). by rewrite IH.
Qed.

(** The sort is stable: the elements of a class keep their order. *)
Lemma Array_sort_stable l : filter E (Array_sort comparefn l) = filter E l.
Proof.
  induction l as [|x l IH]; simpl; [done|].
  destruct (decide (E x)).
  - rewrite sort_insert_filter_in, filter_cons_True by done. by rewrite IH.
  - rewrite sort_insert_filter_out, filter_cons_False by done. done.
Qed.
End SortStable.

Lemma priorityOrder_inj p q : priorityOrder p = priorityOrder q -> p = q.
Proof. destruct p, q; simpl; intros; (done || lia). Qed.

Lemma SortCompare_byPriorityThenNewest a b :
  JS.SortCompare byPriorityThenNewest a b
  = if decide (priorityOrder (priority a) = priorityOrder (priority b))
    then createdAt b - createdAt a
    else priorityOrder (priority a) - priorityOrder (priority b).
Proof.
  unfold JS.SortCompare, byPriorityThenNewest.
  destruct (Z.eqb_spec (priorityOrder (priority a) - priorityOrder (priority b)) 0);
    simpl; case_decide; (done || lia).
Qed.

Lemma cmp_le_sorts_before a b :
  JS.cmp_le byPriorityThenNewest a b <-> sorts_before a b.
Proof.
  unfold JS.cmp_le, sorts_before. rewrite SortCompare_byPriorityThenNewest.
  case_decide; lia.
Qed.

Lemma sorts_before_total a b : sorts_before a b \/ sorts_before b a.
Proof. unfold sorts_before. lia. Qed.

#[global] Instance sorts_before_trans : Transitive sorts_before.
Proof. unfold sorts_before. intros a b c. lia. Qed.

Lemma StronglySorted_ext {A} (R S : A -> A -> Prop) l :
  (forall x y, R x y -> S x y) -> StronglySorted R l -> StronglySorted S l.
Proof.
  intros HRS. induction 1 as [|x l Hs IH Hf]; constructor; [done|].
  eapply Forall_impl; [exact Hf|]. auto.
Qed.

Lemma StronglySorted_filter {A} (R : A -> A -> Prop) (P : A -> Prop)
    `{!forall x, Decision (P x)} l :
  StronglySorted R l -> StronglySorted R (filter P l).
Proof.
  induction 1 as [|x l Hs IH Hf]; [constructor|].
  rewrite filter_cons. case_decide; [|done]. constructor; [done|].
  rewrite Forall_forall in Hf |- *. intros y Hy.
  apply list_elem_of_filter in Hy as [_ Hy]. auto.
Qed.

Lemma sortedTasks_perm ts : sortedTasks ts ≡ₚ ts.
Proof. apply JSFacts.Array_sort_perm. Qed.

Lemma sortedTasks_sorted ts : StronglySorted sorts_before (sortedTasks ts).
Proof.
  apply (StronglySorted_ext (JS.cmp_le byPriorityThenNewest)).
  { intros x y. apply cmp_le_sorts_before. }
  apply Sorted_StronglySorted.
  - intros a b c. rewrite !cmp_le_sorts_before. apply sorts_before_trans.
  - apply JSFacts.Array_sort_Sorted. intros x y.
    rewrite !cmp_le_sorts_before. apply sorts_before_total.
Qed.

Lemma sortedTasks_stable e ts :
  filter (same_rank e) (sortedTasks ts) = filter (same_rank e) ts.
Proof.
  apply Array_sort_stable. intros x y [Hp Hc] [Hp' Hc'].
  rewrite SortCompare_byPriorityThenNewest.
  rewrite decide_True by congruence. lia.
Qed.

(** A sorted list is fixed by the order of the elements within each
    class of equivalent elements: two stable sorts give the same list. *)
Section SortUnique.
Context {A : Type} (R E : A -> A -> Prop) `{!forall x y, Decision (E x y)}.
Hypothesis R_refl : forall x, R x x.
Hypothesis E_iff : forall x y, E x y <-> R x y /\ R y x.

Lemma sorted_head_le x l y : StronglySorted R (x :: l) -> y ∈ x :: l -> R x y.
Proof.
  intros Hs Hy. apply StronglySorted_cons in Hs as [Hf _].
  apply elem_of_cons in Hy as [->|Hy]; [apply R_refl|].
  rewrite Forall_forall in Hf. auto.
Qed.

Lemma sorted_stable_unique l1 l2 :
  StronglySorted R l1 -> StronglySorted R l2 ->
  (forall e, filter (E e) l1 = filter (E e) l2) -> l1 = l2.
Proof.
  assert (forall x, E x x) as E_refl by (intros x; apply E_iff; auto).
  revert l2. induction l1 as [|x l1 IH]; intros [|y l2] H1 H2 Hf; [done| | |].
  - specialize (Hf y). rewrite filter_nil, filter_cons_True in Hf by done. done.
  - specialize (Hf x). rewrite filter_nil, filter_cons_True in Hf by done. done.
  - assert (y ∈ x :: l1) as Hy.
    { eapply (list_elem_of_filter (E y)). rewrite (Hf y), filter_cons_True by done.
      apply list_elem_of_here. }
    assert (x ∈ y :: l2) as Hx.
    { eapply (list_elem_of_filter (E x)). rewrite <- (Hf x), filter_cons_True by done.
      apply list_elem_of_here. }
    assert (E x y) as Hxy.
    { apply E_iff. split; eapply sorted_head_le; eauto. }
    assert (x = y) as <-.
    { specialize (Hf x). rewrite !filter_cons_True in Hf by done. congruence. }
    f_equal. apply IH.
    + by apply StronglySorted_cons in H1 as [_ ?].
    + by apply StronglySorted_cons in H2 as [_ ?].
    + intros e. specialize (Hf e). rewrite !filter_cons in Hf.
      destruct (decide (E e x)); congruence.
Qed.
End SortUnique.

Lemma same_rank_iff a b : same_rank a b <-> sorts_before a b /\ sorts_before b a.
Proof.
  unfold same_rank, sorts_before. split.
  - intros [-> ->]. lia.
  - intros [H1 H2]. split; [apply priorityOrder_inj|]; lia.
Qed.

(** Whatever stable sort the engine runs, it computes [sortedTasks]. *)
Lemma sortedTasks_unique ts l :
  StronglySorted sorts_before l ->
  (forall e, filter (same_rank e) l = filter (same_rank e) ts) ->
  l = sortedTasks ts.
Proof.
  intros Hs Hf. apply (sorted_stable_unique sorts_before same_rank).
  - intros x. unfold sorts_before. lia.
  - apply same_rank_iff.
  - done.
  - apply sortedTasks_sorted.
  - intros e. by rewrite Hf, sortedTasks_stable.
Qed.

Section ViewFacts.
Variable Date_parse : string -> option Z.

Abbreviation isOverdue' := (isOverdue Date_parse).
Abbreviation todayTasks' := (todayTasks Date_parse).
Abbreviation overdueTasks' := (overdueTasks Date_parse).

Lemma isOverdue_spec now t : isOverdue' now t = true <-> overdue_at Date_parse now t.
Proof.
  unfold isOverdue, overdue_at, dueTime, date_lt.
  rewrite !andb_true_iff, negb_true_iff. split.
  - intros [[Hc Ht] Hlt]. split; [done|].
    destruct (dueDate t) as [d|]; [|done].
    destruct (Date_parse d) as [z|] eqn:Hz; [|done].
    exists d, z. repeat split; try done; [|lia].
    intros ->. done.
  - intros [Hc (d & z & -> & Hd & -> & Hlt)]. repeat split; [done| |lia].
    by destruct d.
Qed.

Lemma classify_from now l today overdue :
  fold_left (fun '(todayTasksList, overdueTasksList) task =>
               if isOverdue' now task
               then (todayTasksList, overdueTasksList ++ [task])
               else (todayTasksList ++ [task], overdueTasksList))
            l (today, overdue)
  = (today ++ filter (fun t => ~ isOverdue' now t = true) l,
     overdue ++ filter (fun t => isOverdue' now t = true) l).
Proof.
  revert today overdue. induction l as [|x l IH]; intros today overdue; simpl.
  - by rewrite !app_nil_r.
  - rewrite !filter_cons. destruct (isOverdue' now x) eqn:Hx; rewrite IH.
    + rewrite decide_False, decide_True by (done || naive_solver).
      by rewrite <- app_assoc.
    + rewrite decide_True, decide_False by (done || naive_solver).
      by rewrite <- app_assoc.
Qed.

Lemma classify_spec now l :
  classify Date_parse now l
  = (filter (fun t => ~ isOverdue' now t = true) l,
     filter (fun t => isOverdue' now t = true) l).
Proof. unfold classify. by rewrite classify_from. Qed.

Lemma todayTasks_filter ts now :
  todayTasks' ts now = filter (fun t => ~ isOverdue' now t = true) (sortedTasks ts).
Proof. unfold todayTasks. by rewrite classify_spec. Qed.

Lemma overdueTasks_perm ts now :
  overdueTasks' ts now ≡ₚ filter (fun t => isOverdue' now t = true) (sortedTasks ts).
Proof.
  unfold overdueTasks. rewrite classify_spec. simpl.
  apply JSFacts.Array_sort_perm.
Qed.

Lemma elem_of_todayTasks ts now t :
  t ∈ todayTasks' ts now <-> t ∈ ts /\ isOverdue' now t = false.
Proof.
  rewrite todayTasks_filter, list_elem_of_filter, sortedTasks_perm.
  rewrite not_true_iff_false. tauto.
Qed.

Lemma elem_of_overdueTasks ts now t :
  t ∈ overdueTasks' ts now <-> t ∈ ts /\ isOverdue' now t = true.
Proof.
  rewrite overdueTasks_perm, list_elem_of_filter, sortedTasks_perm. tauto.
Qed.

Lemma views_perm ts now : todayTasks' ts now ++ overdueTasks' ts now ≡ₚ ts.
Proof.
  rewrite todayTasks_filter, overdueTasks_perm.
  rewrite (Permutation_app_comm _ _).
  rewrite filter_app_complement. apply sortedTasks_perm.
Qed.

Lemma Sorted_on {A} (R S : A -> A -> Prop) (P : A -> Prop) l :
  (forall x y, P x -> P y -> R x y -> S x y) ->
  Forall P l -> Sorted R l -> Sorted S l.
Proof.
  intros HRS Hf Hs. induction Hs as [|x l Hs IH Hd]; [constructor|].
  apply Forall_cons in Hf as [Hx Hl]. constructor; [auto|].
  destruct Hd as [|y l' Hxy]; constructor.
  apply Forall_cons in Hl as [Hy _]. auto.
Qed.

(** The overdue list is sorted by priority rank, then by due date, the
    soonest first. *)
Lemma overdueTasks_sorted ts now :
  Sorted (due_before Date_parse) (overdueTasks' ts now).
Proof.
  apply (Sorted_on (JS.cmp_le (byPriorityThenDue Date_parse)) _
           (fun t => isOverdue' now t = true)).
  - intros a b Ha Hb. unfold JS.cmp_le, JS.SortCompare, byPriorityThenDue, due_before.
    apply isOverdue_spec in Ha as (_ & da & x & Hda & _ & Hx & _).
    apply isOverdue_spec in Hb as (_ & db & y & Hdb & _ & Hy & _).
    unfold dueTime. rewrite Hda, Hdb, Hx, Hy.
    destruct (Z.eqb_spec (priorityOrder (priority a) - priorityOrder (priority b)) 0);
      simpl; intros Hle; [right|left; lia].
    split; [lia|]. exists x, y. repeat split; lia.
  - rewrite Forall_forall. intros t Ht.
    by apply elem_of_overdueTasks in Ht as [_ ?].
  - apply JSFacts.Array_sort_Sorted. intros a b.
    unfold JS.cmp_le, JS.SortCompare, byPriorityThenDue.
    destruct (Z.eqb_spec (priorityOrder (priority a) - priorityOrder (priority b)) 0),
             (Z.eqb_spec (priorityOrder (priority b) - priorityOrder (priority a)) 0);
      simpl; try lia.
    destruct (dueTime Date_parse a), (dueTime Date_parse b); simpl; lia.
Qed.

Lemma views_length ts now :
  (length (todayTasks' ts now) + length (overdueTasks' ts now) = length ts)%nat.
Proof. by rewrite <- length_app, views_perm. Qed.
End ViewFacts.

(** ** The views: properties *)

Section ViewProperties.
Variable Date_parse : string -> option Z.

(** C1. A task of the collection is in the overdue list exactly when it
    is not completed, has a due date and that date parses to a time
    strictly before the evaluation time; otherwise it is in the upcoming
    list.  A completed task and a task without due date are never in the
    overdue list.  A due date is a non-empty text (the component tests the
    field for truthiness); as the empty text is not a date, the condition
    may be left out. *)
Theorem overdue_classification ts now t :
  (t ∈ overdueTasks Date_parse ts now <-> t ∈ ts /\ overdue_at Date_parse now t)
  /\ (t ∈ todayTasks Date_parse ts now <-> t ∈ ts /\ ~ overdue_at Date_parse now t)
  /\ (completed t = true -> t ∉ overdueTasks Date_parse ts now)
  /\ (dueDate t = None -> t ∉ overdueTasks Date_parse ts now)
  /\ (Date_parse "" = None ->
      (t ∈ overdueTasks Date_parse ts now <->
       t ∈ ts /\ completed t = false
       /\ exists d z, dueDate t = Some d /\ Date_parse d = Some z /\ z < now)).
Proof.
  assert (t ∈ overdueTasks Date_parse ts now
          <-> t ∈ ts /\ overdue_at Date_parse now t) as Hov
    by by rewrite elem_of_overdueTasks, isOverdue_spec.
  split; [done|]. split.
  { rewrite elem_of_todayTasks, <- isOverdue_spec, not_true_iff_false. tauto. }
  split. { rewrite Hov. intros Hc [_ [Hc' _]]. congruence. }
  split. { rewrite Hov. intros Hd [_ [_ (d & z & Hd' & _)]]. congruence. }
  intros Hempty. rewrite Hov. unfold overdue_at. split.
  - intros (? & ? & d & z & ? & ? & ? & ?). eauto 10.
  - intros (? & ? & d & z & ? & Hz & ?). repeat split; try done.
    exists d, z. repeat split; try done. intros ->. congruence.
Qed.

(** C8. The upcoming list followed by the overdue list is a rearrangement
    of the collection, and every task of the collection is in one of the
    two lists and not in the other. *)
Theorem views_partition ts now :
  todayTasks Date_parse ts now ++ overdueTasks Date_parse ts now ≡ₚ ts
  /\ (forall t, t ∈ ts ->
        (t ∈ todayTasks Date_parse ts now /\ t ∉ overdueTasks Date_parse ts now)
        \/ (t ∈ overdueTasks Date_parse ts now /\ t ∉ todayTasks Date_parse ts now))
  /\ (forall t,
        t ∈ todayTasks Date_parse ts now \/ t ∈ overdueTasks Date_parse ts now ->
        t ∈ ts).
Proof.
  split; [apply views_perm|]. split.
  - intros t Ht. rewrite elem_of_todayTasks, elem_of_overdueTasks.
    destruct (isOverdue Date_parse now t); [right|left]; split;
      (tauto || intros [_ ?]; done).
  - intros t. rewrite elem_of_todayTasks, elem_of_overdueTasks. tauto.
Qed.

(** C4. [sortedTasks] rearranges the collection so that every task may
    be displayed before every later one: priority ranks ascend, and among
    equal ranks creation times descend.  Tasks that agree on both keep
    their order.  The upcoming list keeps this order.  Four tasks of
    priorities low, high, medium, high created one after the other come
    out as the newer high, the older high, the medium, the low. *)
Theorem sortedTasks_order ts :
  sortedTasks ts ≡ₚ ts
  /\ StronglySorted sorts_before (sortedTasks ts)
  /\ (forall e, filter (same_rank e) (sortedTasks ts) = filter (same_rank e) ts)
  /\ (forall now, StronglySorted sorts_before (todayTasks Date_parse ts now))
  /\ (forall t1 t2 t3 t4,
        priority t1 = low -> priority t2 = high ->
        priority t3 = medium -> priority t4 = high ->
        createdAt t1 < createdAt t2 -> createdAt t2 < createdAt t3 ->
        createdAt t3 < createdAt t4 ->
        sortedTasks [t1; t2; t3; t4] = [t4; t2; t3; t1]).
Proof.
  split; [apply sortedTasks_perm|]. split; [apply sortedTasks_sorted|].
  split; [intros e; apply sortedTasks_stable|]. split.
  - intros now. rewrite todayTasks_filter.
    apply StronglySorted_filter, sortedTasks_sorted.
  - intros t1 t2 t3 t4 H1 H2 H3 H4 L12 L23 L34.
    unfold sortedTasks. cbn [JS.Array_sort].
    repeat first
      [ rewrite JSFacts.sort_insert_nil
      | rewrite JSFacts.sort_insert_le
          by (rewrite SortCompare_byPriorityThenNewest, ?H1, ?H2, ?H3, ?H4;
              case_decide; simpl in *; lia)
      | rewrite JSFacts.sort_insert_gt
          by (rewrite SortCompare_byPriorityThenNewest, ?H1, ?H2, ?H3, ?H4;
              case_decide; simpl in *; lia) ].
    done.
Qed.
End ViewProperties.

Lemma overdue_classification_witness :
  (paid_task ∉ overdueTasks ISODate.parse [rent_task; paid_task; free_task] jan2)
  /\ (free_task ∉ overdueTasks ISODate.parse [rent_task; paid_task; free_task] jan2)
  /\ (rent_task ∈ overdueTasks ISODate.parse [rent_task; paid_task; free_task] jan2 <->
      rent_task ∈ [rent_task; paid_task; free_task] /\ completed rent_task = false
      /\ exists d z, dueDate rent_task = Some d /\ ISODate.parse d = Some z /\ z < jan2).
Proof.
  split; [|split].
  - apply (proj1 (proj2 (proj2 (overdue_classification ISODate.parse
             [rent_task; paid_task; free_task] jan2 paid_task)))).
    reflexivity.
  - apply (proj1 (proj2 (proj2 (proj2 (overdue_classification ISODate.parse
             [rent_task; paid_task; free_task] jan2 free_task))))).
    reflexivity.
  - apply (proj2 (proj2 (proj2 (proj2 (overdue_classification ISODate.parse
             [rent_task; paid_task; free_task] jan2 rent_task))))).
    reflexivity.
Defined.

Lemma views_partition_witness :
  (rent_task ∈ todayTasks ISODate.parse [rent_task; paid_task; free_task] jan2
   /\ rent_task ∉ overdueTasks ISODate.parse [rent_task; paid_task; free_task] jan2)
  \/ (rent_task ∈ overdueTasks ISODate.parse [rent_task; paid_task; free_task] jan2
      /\ rent_task ∉ todayTasks ISODate.parse [rent_task; paid_task; free_task] jan2).
Proof.
  apply (proj1 (proj2 (views_partition ISODate.parse
           [rent_task; paid_task; free_task] jan2)) rent_task).
  apply list_elem_of_here.
Defined.

Lemma sortedTasks_order_witness :
  sortedTasks [low_100; high_200; medium_300; high_400]
  = [high_400; high_200; medium_300; low_100].
Proof.
  apply (proj2 (proj2 (proj2 (proj2 (sortedTasks_order ISODate.parse []))))
           low_100 high_200 medium_300 high_400
           eq_refl eq_refl eq_refl eq_refl); simpl; lia.
Defined.

(** C10. When [addTask] is given the empty text as due date and creates
    a task, the task has no due date; it is not overdue at any time and
    is in the upcoming list. *)
Theorem addTask_empty_dueDate Date_parse uuid now input p st :
  let st' := addTask uuid now input p (Some "") st in
  tasks st' <> tasks st ->
  exists t, tasks st' = t :: tasks st
    /\ id t = uuid /\ text t = JS.trim input /\ dueDate t = None
    /\ forall time,
         isOverdue Date_parse time t = false
         /\ (t ∉ overdueTasks Date_parse (tasks st') time)
         /\ (t ∈ todayTasks Date_parse (tasks st') time).
Proof.
  intros st' Hch. subst st'. revert Hch.
  destruct (addTask_cases input st) as [?|? Ha|? Hu|? Ha Hu ?|? ? ? ?].
  - by rewrite addTask_blank.
  - by rewrite addTask_admin.
  - by rewrite addTask_unadmin.
  - by rewrite addTask_duplicate.
  - rewrite addTask_creates by done. simpl. intros _.
    eexists. split; [reflexivity|]. simpl. repeat split; try done.
    + rewrite elem_of_overdueTasks. intros [_ H']. by vm_compute in H'.
    + rewrite elem_of_todayTasks. split; [apply list_elem_of_here|done].
Qed.

Lemma addTask_empty_dueDate_witness :
  let st := {| tasks := [rent_task]; notification := None; isAdmin := false |} in
  let st' := addTask "d" 1704000000000 " Water plants " medium (Some "") st in
  exists t, tasks st' = t :: tasks st
    /\ id t = "d" /\ text t = JS.trim " Water plants " /\ dueDate t = None
    /\ forall time,
         isOverdue ISODate.parse time t = false
         /\ (t ∉ overdueTasks ISODate.parse (tasks st') time)
         /\ (t ∈ todayTasks ISODate.parse (tasks st') time).
Proof.
  intros st.
  apply (addTask_empty_dueDate ISODate.parse "d" 1704000000000 " Water plants "
           medium st).
  vm_compute. discriminate.
Defined.

(** ** Loading the saved tasks: properties *)

Lemma initialTasks_unfold {E} (JSON_parse : string -> outcome E (list Task))
    localStorage console :
  initialTasks JSON_parse localStorage console
  = match localStorage "tasks" with
    | Some s =>
        if decide (s = "") then (Returns [], console)
        else match JSON_parse s with
             | Returns ts => (Returns ts, console)
             | Throws e => (Returns [], console ++ [mkLog load_message e])
             end
    | None => (Returns [], console)
    end.
Proof.
  unfold initialTasks, try_catch, mbind, Comp_bind, bind, getItem, ret, parse,
    console_error.
  destruct (localStorage "tasks") as [s|]; [|done].
  destruct s as [|c s]; [done|]. simpl.
  by destruct (JSON_parse (String c s)).
Qed.

(** C7, as stated, fails on the empty text: it is not JSON, so parsing it
    throws, but the loader takes a saved empty text for nothing saved and
    writes no diagnostic. *)
Lemma initialTasks_empty_text_not_logged :
  ~ (forall e, JSON_parse_sample "" = Throws e ->
       initialTasks JSON_parse_sample (storage_with "") []
       = (Returns [], [mkLog load_message e])).
Proof.
  intros H. specialize (H "SyntaxError" eq_refl).
  vm_compute in H. discriminate.
Qed.

(** C7 (amended). Loading always returns a collection and never throws.
    When the saved text is not empty and parsing it throws, the result is
    the empty collection and the error is written to the console; when it
    parses, the result is the parsed collection; when nothing or the
    empty text is saved, the result is the empty collection and nothing
    is written. *)
Theorem initialTasks_never_throws {E} (JSON_parse : string -> outcome E (list Task))
    localStorage console :
  (exists ts console',
     initialTasks JSON_parse localStorage console = (Returns ts, console'))
  /\ (forall s e, localStorage "tasks" = Some s -> s <> "" ->
        JSON_parse s = Throws e ->
        initialTasks JSON_parse localStorage console
        = (Returns [], console ++ [mkLog load_message e]))
  /\ (forall s ts, localStorage "tasks" = Some s -> s <> "" ->
        JSON_parse s = Returns ts ->
        initialTasks JSON_parse localStorage console = (Returns ts, console))
  /\ (localStorage "tasks" = None \/ localStorage "tasks" = Some "" ->
        initialTasks JSON_parse localStorage console = (Returns [], console)).
Proof.
  rewrite initialTasks_unfold. split; [|split; [|split]].
  - destruct (localStorage "tasks") as [s|]; [|by eauto].
    case_decide; [by eauto|]. destruct (JSON_parse s); by eauto.
  - intros s e -> Hne ->. by rewrite decide_False.
  - intros s ts -> Hne ->. by rewrite decide_False.
  - by intros [->| ->].
Qed.

Lemma initialTasks_never_throws_witness :
  initialTasks JSON_parse_sample (storage_with "{oops") []
  = (Returns [], [mkLog load_message "SyntaxError"]).
Proof.
  apply (proj1 (proj2 (initialTasks_never_throws JSON_parse_sample
                         (storage_with "{oops") [])) "{oops" "SyntaxError").
  - reflexivity.
  - discriminate.
  - reflexivity.
Defined.

(** ** The productivity percentage: properties *)

Lemma check_upto_spec check bound c n :
  check_upto check bound = true ->
  (c <= n)%nat -> (0 < n <= bound)%nat -> check c n = true.
Proof.
  unfold check_upto. rewrite forallb_forall. intros H Hc Hn.
  destruct n as [|n]; [lia|].
  assert (In n (seq 0 bound)) as Hin by (apply in_seq; lia).
  specialize (H n Hin). rewrite forallb_forall in H.
  apply H, in_seq. lia.
Qed.

(** Below 40 tasks the component shows the specified percentage. *)
Lemma rounded_ratio_below_40 c n :
  (c <= n)%nat -> (0 < n < 40)%nat ->
  rounded_ratio c n = Some (spec_percentage n 0 c).
Proof.
  intros Hc Hn.
  assert (check_upto agrees 39 = true) as H by (vm_compute; reflexivity).
  apply (check_upto_spec _ _ c n) in H; [|lia..].
  by apply bool_decide_eq_true in H.
Qed.

(** Up to 100 tasks it shows the specified percentage, or one less when
    the exact percentage is halfway between two integers. *)
Lemma rounded_ratio_upto_100 c n :
  (c <= n)%nat -> (0 < n <= 100)%nat ->
  rounded_ratio c n = Some (spec_percentage n 0 c)
  \/ (exact_half c n = true
      /\ rounded_ratio c n = Some (spec_percentage n 0 c - 1)).
Proof.
  intros Hc Hn.
  assert (check_upto agrees_but_half 100 = true) as H by (vm_compute; reflexivity).
  apply (check_upto_spec _ _ c n) in H; [|lia..].
  unfold agrees_but_half, agrees in H.
  apply orb_true_iff in H as [H|H].
  - left. by apply bool_decide_eq_true in H.
  - right. apply andb_true_iff in H as [? H].
    by apply bool_decide_eq_true in H.
Qed.

(** The halves: 23 completed tasks among 40 give 57 where the exact
    percentage is 57.5, because the quotient [23 / 40] is rounded to a
    Number below 0.575 before it is multiplied by 100; multiplying first
    gives 58.  One completed task among 8 gives 13 for 12.5. *)
Lemma rounded_ratio_halves :
  rounded_ratio 23 40 = Some 57
  /\ JS.Math_round (JS.div (JS.mul (JS.of_nat 100) (JS.of_nat 23)) (JS.of_nat 40))
     = Some 58
  /\ spec_percentage 40 0 23 = 58
  /\ rounded_ratio 1 8 = Some 13
  /\ spec_percentage 8 0 1 = 13.
Proof. vm_compute. repeat split. Qed.

(** C2, as stated, fails for 40 tasks without due date of which 23 are
    completed: all are upcoming, the specified percentage is
    [round (57.5) = 58] and the component shows 57. *)
Lemma productivityPercentage_23_of_40 :
  ~ (productivityPercentage ISODate.parse (plain_tasks 23 40) jan2
     = Some (spec_percentage
               (length (todayTasks ISODate.parse (plain_tasks 23 40) jan2))
               (length (overdueTasks ISODate.parse (plain_tasks 23 40) jan2))
               (length (filter (fun t => completed t = true)
                          (todayTasks ISODate.parse (plain_tasks 23 40) jan2))))).
Proof. vm_compute. discriminate. Qed.

Section Productivity.
Variable Date_parse : string -> option Z.

(** The count of all tasks on line 145 is the size of the collection. *)
Lemma productivityPercentage_unfold ts now :
  productivityPercentage Date_parse ts now
  = if decide (ts = []) then Some 100
    else rounded_ratio
           (length (filter (fun t => completed t = true) (todayTasks Date_parse ts now)))
           (length (todayTasks Date_parse ts now)
            + length (overdueTasks Date_parse ts now)).
Proof.
  unfold productivityPercentage. rewrite length_app.
  pose proof (views_length Date_parse ts now) as Hl.
  destruct ts as [|t ts]; [done|]. rewrite decide_False by done.
  simpl in Hl. rewrite Hl. reflexivity.
Qed.

(** C2 (amended). With [U] upcoming tasks, [O] overdue tasks and [C]
    completed tasks among the upcoming ones, [U + O] is the size of the
    collection; the percentage is 100 when [U + O = 0] and otherwise the
    binary64 Number [(C / (U + O)) * 100] rounded by [Math.round].  This
    is [round (100 * C / (U + O))], halves upwards, for fewer than 40
    tasks; up to 100 tasks it is that or, when the exact percentage is
    halfway between two integers, one less. *)
Theorem productivityPercentage_spec ts now :
  let U := length (todayTasks Date_parse ts now) in
  let O := length (overdueTasks Date_parse ts now) in
  let C := length (filter (fun t => completed t = true)
                     (todayTasks Date_parse ts now)) in
  (U + O)%nat = length ts
  /\ (C <= U)%nat
  /\ ((U + O)%nat = 0%nat -> productivityPercentage Date_parse ts now = Some 100)
  /\ ((U + O)%nat <> 0%nat ->
      productivityPercentage Date_parse ts now = rounded_ratio C (U + O))
  /\ ((U + O < 40)%nat ->
      productivityPercentage Date_parse ts now = Some (spec_percentage U O C))
  /\ ((U + O <= 100)%nat ->
      productivityPercentage Date_parse ts now = Some (spec_percentage U O C)
      \/ (exact_half C (U + O) = true
          /\ productivityPercentage Date_parse ts now
             = Some (spec_percentage U O C - 1))).
Proof.
  destruct ts as [|t ts];
    [simpl; repeat split; first [done | lia | by left]|].
  intros U O C.
  assert ((U + O)%nat = length (t :: ts)) as Hlen by apply views_length.
  assert (C <= U)%nat as HC by apply length_filter.
  assert (forall a b c, spec_percentage a b c = spec_percentage (a + b) 0 c) as Hsp.
  { intros a b c. unfold spec_percentage. by rewrite Nat.add_0_r. }
  rewrite productivityPercentage_unfold. fold U O C.
  rewrite decide_False by done. simpl in Hlen.
  split; [done|]. split; [done|].
  split; [intros ?; exfalso; lia|]. split; [done|]. split.
  - intros Hn. rewrite Hsp. apply rounded_ratio_below_40; lia.
  - intros Hn. rewrite Hsp. apply rounded_ratio_upto_100; lia.
Qed.
End Productivity.

(** Two upcoming tasks, one of them completed, and one overdue task. *)
Lemma productivityPercentage_spec_witness :
  productivityPercentage ISODate.parse [rent_task; paid_task; free_task] jan2
  = Some (spec_percentage 2 1 1).
Proof.
  apply (proj1 (proj2 (proj2 (proj2 (proj2
           (productivityPercentage_spec ISODate.parse
              [rent_task; paid_task; free_task] jan2)))))).
  simpl. lia.
Defined.

Lemma productivityPercentage_one_of_three :
  todayTasks ISODate.parse [rent_task; paid_task; free_task] jan2
    = [paid_task; free_task]
  /\ overdueTasks ISODate.parse [rent_task; paid_task; free_task] jan2 = [rent_task]
  /\ productivityPercentage ISODate.parse [rent_task; paid_task; free_task] jan2
    = Some 33
  /\ spec_percentage 2 1 1 = 33.
Proof. vm_compute. repeat split. Qed.

(** * Further properties of the component *)

(** ** Blank and reserved inputs *)

Lemma whitespace_only_app s1 s2 :
  whitespace_only (s1 +:+ s2) <-> whitespace_only s1 /\ whitespace_only s2.
Proof.
  induction s1 as [|c r IH]; simpl; [tauto|].
  change (String c r +:+ s2) with (String c (r +:+ s2)). simpl. tauto.
Qed.

Lemma trim_empty_iff s : JS.trim s = "" <-> whitespace_only s.
Proof.
  split.
  - intros He. destruct (StringFacts.trim_decompose s) as (pre & post & ? & ? & Hs).
    rewrite Hs, He. apply whitespace_only_app. split; [done|].
    by apply whitespace_only_app.
  - intros Hs. unfold JS.trim. by rewrite StringFacts.trimStart_ws.
Qed.

(** A character that lower-cases to a letter of a-z is that letter or its
    capital. *)
Lemma toLowerChar_letter d :
  (97 <= JS.code (JS.toLowerChar d) <= 122)%N -> same_letter (JS.toLowerChar d) d.
Proof.
  destruct d as [[] [] [] [] [] [] [] []]; vm_compute; intros [H1 H2];
    first [ by left
          | right; repeat split; congruence
          | exfalso; congruence ].
Qed.

Lemma same_letter_toLowerChar c d :
  (97 <= JS.code c <= 122)%N -> same_letter c d -> JS.toLowerChar d = c.
Proof.
  intros Hc [->|[_ Hd]].
  - unfold JS.toLowerChar.
    destruct (_ || _)%bool eqn:E; [|done]. exfalso.
    apply orb_true_iff in E as [E|E]; apply andb_true_iff in E as [E1 E2].
    + apply N.leb_le in E2. lia.
    + apply andb_true_iff in E1 as [E1 _]. apply N.leb_le in E1. lia.
  - unfold JS.toLowerChar.
    assert ((65 <=? JS.code d) && (JS.code d <=? 90) = true)%N as ->.
    { apply andb_true_iff. split; apply N.leb_le; lia. }
    simpl. rewrite Hd. apply ascii_N_embedding.
Qed.

(** Lower-casing a text gives a word of a-z exactly when the text spells
    the word in some letter case. *)
Lemma toLowerCase_word w s :
  lowercase_word w -> (JS.toLowerCase s = w <-> in_any_case w s).
Proof.
  revert s. induction w as [|c w IH]; intros [|d s] Hw; simpl; try done.
  destruct Hw as [Hc Hw]. rewrite <- (IH s Hw). split.
  - intros [= Hd Hs]. split; [|done]. rewrite <- Hd. apply toLowerChar_letter.
    by rewrite Hd.
  - intros [Hd Hs]. f_equal; [|done]. by apply same_letter_toLowerChar.
Qed.

Lemma lowercase_admin : lowercase_word "admin" /\ lowercase_word "unadmin".
Proof. simpl. unfold JS.code. simpl. lia. Qed.

(** X1. An input of white space only changes nothing: no task, no
    notification, no change of the admin flag. *)
Theorem addTask_whitespace_noop uuid now input p d st :
  whitespace_only input -> addTask uuid now input p d st = st.
Proof. intros Hw. apply addTask_blank. by apply trim_empty_iff. Qed.

Lemma addTask_whitespace_noop_witness :
  addTask "a1" 1700000000001 "   " high (Some "2024-05-01") blank_store = blank_store.
Proof.
  apply (addTask_whitespace_noop "a1" 1700000000001 "   " high
           (Some "2024-05-01") blank_store).
  simpl. tauto.
Defined.

(** X2. [addTask] creates at most one task and puts it in front of the
    others, which it leaves as they are; it creates one exactly when the
    input is not blank, is not a reserved command and is no duplicate,
    and then the notification and the admin flag stay as they were. *)
Theorem addTask_creates_iff uuid now input p d st :
  let st' := addTask uuid now input p d st in
  let created :=
    JS.trim input <> "" /\ folded input <> "admin" /\ folded input <> "unadmin"
    /\ ~ duplicate_of input (tasks st) in
  (created ->
     st' = {| tasks := {| id := uuid; text := JS.trim input; completed := false;
                          createdAt := now; priority := p;
                          dueDate := if JS.truthy d then d else None |}
                       :: tasks st;
              notification := notification st; isAdmin := isAdmin st |})
  /\ (~ created -> tasks st' = tasks st)
  /\ tasks st `suffix_of` tasks st'
  /\ (length (tasks st') <= S (length (tasks st)))%nat.
Proof.
  intros st' created. subst st' created.
  destruct (addTask_cases input st) as [?|? Ha|? Hu|? Ha Hu ?|? ? ? ?].
  - rewrite addTask_blank by done.
    split; [tauto|]. split; [done|]. split; [done|lia].
  - rewrite addTask_admin by done. simpl.
    split; [tauto|]. split; [done|]. split; [done|lia].
  - rewrite addTask_unadmin by done. simpl.
    split; [tauto|]. split; [done|]. split; [done|lia].
  - rewrite addTask_duplicate by done. simpl.
    split; [tauto|]. split; [done|]. split; [done|lia].
  - rewrite addTask_creates by done. simpl.
    split; [done|]. split; [tauto|]. split; [by apply suffix_cons_r|lia].
Qed.

Lemma addTask_creates_iff_witness :
  addTask "d" 1704000000000 " Water plants " medium (Some "2024-02-01")
    {| tasks := [rent_task]; notification := None; isAdmin := false |}
  = {| tasks := [ {| id := "d"; text := "Water plants"; completed := false;
                     createdAt := 1704000000000; priority := medium;
                     dueDate := Some "2024-02-01" |}; rent_task ];
       notification := None; isAdmin := false |}.
Proof.
  apply (proj1 (addTask_creates_iff "d" 1704000000000 " Water plants " medium
                  (Some "2024-02-01")
                  {| tasks := [rent_task]; notification := None; isAdmin := false |})).
  repeat split; try (vm_compute; discriminate).
  intros (t & Ht & Hf). apply list_elem_of_singleton in Ht as ->.
  vm_compute in Hf. discriminate.
Defined.

(** ** Invariants of the collection *)

Lemma folded_trim s : folded (JS.trim s) = folded s.
Proof. unfold folded. by rewrite StringFacts.trim_fixed. Qed.

Lemma toggled_text_fmap {B} (f : string -> B) i (ts : list Task) :
  (fun t => f (text t)) <$> (toggled i <$> ts) = (fun t => f (text t)) <$> ts.
Proof.
  rewrite <- list_fmap_compose. apply list_fmap_ext. intros k t _. simpl.
  by destruct (toggled_frame i t) as (_ & -> & _).
Qed.

Lemma toggled_id_fmap i (ts : list Task) :
  id <$> (toggled i <$> ts) = id <$> ts.
Proof.
  rewrite <- list_fmap_compose. apply list_fmap_ext. intros k t _. simpl.
  by destruct (toggled_frame i t) as (-> & _).
Qed.

Lemma NoDup_fmap_filter {A B} (f : A -> B) (P : A -> Prop)
    `{!forall x, Decision (P x)} l :
  NoDup (f <$> l) -> NoDup (f <$> filter P l).
Proof.
  intros Hl. apply (sublist_NoDup _ (f <$> l)); [done|].
  apply fmap_sublist, sublist_filter.
Qed.

(** The handlers keep the texts of the collection distinct up to
    trimming and letter case. *)
Lemma keep_texts_unique st :
  texts_unique (tasks st) ->
  (forall uuid now input p d, texts_unique (tasks (addTask uuid now input p d st)))
  /\ (forall i, texts_unique (tasks (toggleTask i st)))
  /\ (forall i, texts_unique (tasks (deleteTask i st))).
Proof.
  unfold texts_unique. intros Hst. split; [|split].
  - intros uuid now input p d.
    destruct (addTask_cases input st) as [?|? Ha|? Hu|? Ha Hu ?|? ? ? Hnd].
    + by rewrite addTask_blank.
    + by rewrite addTask_admin.
    + by rewrite addTask_unadmin.
    + by rewrite addTask_duplicate.
    + rewrite addTask_creates by done. simpl. apply NoDup_cons. split; [|done].
      rewrite folded_trim. intros Hin. apply Hnd.
      apply list_elem_of_fmap in Hin as (t & Ht & Hin). by exists t.
  - intros i. by rewrite toggleTask_tasks, toggled_text_fmap.
  - intros i. by apply NoDup_fmap_filter.
Qed.

(** The handlers keep the identifiers distinct, [addTask] provided the
    identifier it is given is not one of the collection. *)
Lemma keep_ids_unique st :
  ids_unique (tasks st) ->
  (forall uuid now input p d,
     uuid ∉ id <$> tasks st ->
     ids_unique (tasks (addTask uuid now input p d st)))
  /\ (forall i, ids_unique (tasks (toggleTask i st)))
  /\ (forall i, ids_unique (tasks (deleteTask i st))).
Proof.
  unfold ids_unique. intros Hst. split; [|split].
  - intros uuid now input p d Hfresh.
    destruct (addTask_cases input st) as [?|? Ha|? Hu|? Ha Hu ?|? ? ? Hnd].
    + by rewrite addTask_blank.
    + by rewrite addTask_admin.
    + by rewrite addTask_unadmin.
    + by rewrite addTask_duplicate.
    + rewrite addTask_creates by done. simpl. by apply NoDup_cons.
  - intros i. by rewrite toggleTask_tasks, toggled_id_fmap.
  - intros i. by apply NoDup_fmap_filter.
Qed.

(** X3. Each handler keeps the data model of the collection: when no
    text is blank, none is afterwards; when the texts are distinct up to
    trimming and letter case, they stay so; when the identifiers are
    distinct, they stay so, for [addTask] provided the identifier it
    draws is not one of the collection. *)
Theorem handlers_keep_data_model st a :
  (texts_nonblank (tasks st) -> texts_nonblank (tasks (handle st a)))
  /\ (texts_unique (tasks st) -> texts_unique (tasks (handle st a)))
  /\ (ids_unique (tasks st) ->
      (forall u, u ∈ drawn_ids [a] -> u ∉ id <$> tasks st) ->
      ids_unique (tasks (handle st a))).
Proof.
  split; [|split].
  - intros Hst. destruct a; by apply (handlers_keep_texts_nonblank st Hst).
  - intros Hst. destruct a; by apply (keep_texts_unique st Hst).
  - intros Hst Hfresh. destruct a; cbn [handle];
      try by apply (keep_ids_unique st Hst).
    apply (keep_ids_unique st Hst), Hfresh. apply list_elem_of_here.
Qed.

Lemma handlers_keep_data_model_witness :
  texts_nonblank
    (tasks (handle {| tasks := [rent_task; free_task]; notification := None;
                      isAdmin := false |}
              (Add "d" 1704000000000 " Water plants " medium None)))
  /\ texts_unique
    (tasks (handle {| tasks := [rent_task; free_task]; notification := None;
                      isAdmin := false |}
              (Add "d" 1704000000000 " Water plants " medium None)))
  /\ ids_unique
    (tasks (handle {| tasks := [rent_task; free_task]; notification := None;
                      isAdmin := false |}
              (Add "d" 1704000000000 " Water plants " medium None))).
Proof.
  split; [|split].
  - apply (proj1 (handlers_keep_data_model
                    {| tasks := [rent_task; free_task]; notification := None;
                       isAdmin := false |}
                    (Add "d" 1704000000000 " Water plants " medium None))).
    repeat constructor; vm_compute; discriminate.
  - apply (proj1 (proj2 (handlers_keep_data_model
                    {| tasks := [rent_task; free_task]; notification := None;
                       isAdmin := false |}
                    (Add "d" 1704000000000 " Water plants " medium None)))).
    apply (bool_decide_unpack _). vm_compute. exact I.
  - apply (proj2 (proj2 (handlers_keep_data_model
                    {| tasks := [rent_task; free_task]; notification := None;
                       isAdmin := false |}
                    (Add "d" 1704000000000 " Water plants " medium None)))).
    + apply (bool_decide_unpack _). vm_compute. exact I.
    + intros u Hu. apply list_elem_of_singleton in Hu as ->.
      apply (bool_decide_unpack _). vm_compute. exact I.
Defined.

(** ** Deleting and toggling *)

Lemma filter_all {A} (P : A -> Prop) `{!forall x, Decision (P x)} (l : list A) :
  Forall P l -> filter P l = l.
Proof.
  induction 1 as [|x l Hx Hl IH]; [done|].
  by rewrite filter_cons_True, IH.
Qed.

Lemma filter_none {A} (P : A -> Prop) `{!forall x, Decision (P x)} (l : list A) :
  Forall (fun x => ~ P x) l -> filter P l = [].
Proof.
  induction 1 as [|x l Hx Hl IH]; [done|].
  by rewrite filter_cons_False, IH.
Qed.

Lemma filter_fmap_comm {A} (f : A -> A) (P : A -> Prop)
    `{!forall x, Decision (P x)} (l : list A) :
  (forall x, P (f x) <-> P x) -> filter P (f <$> l) = f <$> filter P l.
Proof.
  intros Hf. induction l as [|x l IH]; [done|]. rewrite fmap_cons, !filter_cons.
  destruct (decide (P x)) as [Hx|Hx].
  - rewrite decide_True by by apply Hf. by rewrite fmap_cons, IH.
  - rewrite decide_False by by rewrite Hf. done.
Qed.

Lemma length_filter_unique_id i (ts : list Task) :
  ids_unique ts -> (exists t, t ∈ ts /\ id t = i) ->
  length (filter (fun t => id t = i) ts) = 1%nat.
Proof.
  unfold ids_unique. induction ts as [|x ts IH]; intros Hnd (t & Ht & Hi).
  { by apply elem_of_nil in Ht. }
  rewrite fmap_cons in Hnd. apply NoDup_cons in Hnd as [Hx Hnd].
  rewrite filter_cons. destruct (decide (id x = i)) as [Hxi|Hxi].
  - rewrite (filter_none _ ts); [done|].
    rewrite Forall_forall. intros y Hy Hyi.
    apply Hx. rewrite Hxi, <- Hyi. by apply list_elem_of_fmap_2.
  - apply IH; [done|]. exists t. split; [|done].
    apply elem_of_cons in Ht as [->|Ht]; done.
Qed.

(** X4. Deleting an id that no task has changes nothing; deleting twice
    is deleting once; and when identifiers are distinct and a task has
    the id, exactly one task goes. *)
Theorem deleteTask_effect i st :
  ((forall t, t ∈ tasks st -> id t <> i) -> deleteTask i st = st)
  /\ deleteTask i (deleteTask i st) = deleteTask i st
  /\ (ids_unique (tasks st) -> (exists t, t ∈ tasks st /\ id t = i) ->
      S (length (tasks (deleteTask i st))) = length (tasks st)).
Proof.
  destruct st as [ts n a]. unfold deleteTask, setTasks. simpl.
  split; [|split].
  - intros Hno. f_equal. apply (filter_all _). by apply Forall_forall.
  - f_equal. apply (filter_all _). apply Forall_forall. intros t Ht.
    by apply list_elem_of_filter in Ht as [? _].
  - intros Hu Hex.
    pose proof (length_filter_unique_id i ts Hu Hex) as H1.
    pose proof (filter_app_complement (fun t => id t = i) ts) as Hp.
    apply Permutation_length in Hp. rewrite length_app in Hp. lia.
Qed.

Lemma deleteTask_effect_witness :
  deleteTask "z" {| tasks := [rent_task; paid_task; free_task];
                    notification := None; isAdmin := false |}
  = {| tasks := [rent_task; paid_task; free_task];
       notification := None; isAdmin := false |}
  /\ S (length (tasks (deleteTask "b"
                        {| tasks := [rent_task; paid_task; free_task];
                           notification := None; isAdmin := false |})))
     = 3%nat.
Proof.
  split.
  - apply (proj1 (deleteTask_effect "z"
                    {| tasks := [rent_task; paid_task; free_task];
                       notification := None; isAdmin := false |})).
    intros t Ht. simpl in Ht.
    apply elem_of_cons in Ht as [->|Ht]; [discriminate|].
    apply elem_of_cons in Ht as [->|Ht]; [discriminate|].
    apply list_elem_of_singleton in Ht as ->. discriminate.
  - apply (proj2 (proj2 (deleteTask_effect "b"
                    {| tasks := [rent_task; paid_task; free_task];
                       notification := None; isAdmin := false |}))).
    + unfold ids_unique. simpl. apply (bool_decide_unpack _). vm_compute. exact I.
    + exists paid_task. split; [|reflexivity]. simpl.
      apply list_elem_of_further, list_elem_of_here.
Defined.

Lemma toggled_comm i j t : toggled i (toggled j t) = toggled j (toggled i t).
Proof.
  unfold toggled.
  destruct (decide (id t = i)) as [Hi|Hi], (decide (id t = j)) as [Hj|Hj]; simpl;
    rewrite ?decide_True, ?decide_False by done; done.
Qed.

(** X5. The order of two toggles, of two deletions, or of a toggle and a
    deletion does not matter; and a deletion makes a toggle of the same
    id before it void. *)
Theorem handlers_commute i j st :
  toggleTask i (toggleTask j st) = toggleTask j (toggleTask i st)
  /\ deleteTask i (deleteTask j st) = deleteTask j (deleteTask i st)
  /\ toggleTask i (deleteTask j st) = deleteTask j (toggleTask i st)
  /\ deleteTask i (toggleTask i st) = deleteTask i st.
Proof.
  destruct st as [ts n a]. unfold toggleTask, deleteTask, setTasks. simpl.
  fold (toggled i) (toggled j).
  assert (forall k t, id (toggled k t) <> j <-> id t <> j) as Hid.
  { intros k t. by destruct (toggled_frame k t) as (-> & _). }
  split; [|split; [|split]]; f_equal.
  - rewrite <- !list_fmap_compose. apply list_fmap_ext. intros k t _.
    apply toggled_comm.
  - rewrite !list_filter_filter. apply list_filter_iff. tauto.
  - symmetry. by apply filter_fmap_comm.
  - induction ts as [|t ts IH]; [done|]. rewrite fmap_cons, !filter_cons.
    destruct (toggled_frame i t) as (Ht & _). rewrite Ht.
    destruct (decide (id t <> i)) as [Hne|He]; [|done].
    by rewrite IH, toggled_other.
Qed.

(** ** The admin flag *)

(** X6. [addTask] changes the admin flag only on the two reserved
    commands: it turns it on only when the trimmed input spells [admin]
    in some letter case, and off only when it spells [unadmin]. *)
Theorem addTask_admin_flag uuid now input p d st :
  let st' := addTask uuid now input p d st in
  (isAdmin st' <> isAdmin st ->
     (isAdmin st' = true /\ in_any_case "admin" (JS.trim input))
     \/ (isAdmin st' = false /\ in_any_case "unadmin" (JS.trim input)))
  /\ (in_any_case "admin" (JS.trim input) <-> folded input = "admin")
  /\ (in_any_case "unadmin" (JS.trim input) <-> folded input = "unadmin").
Proof.
  intros st'. subst st'.
  destruct lowercase_admin as [La Lu].
  pose proof (toLowerCase_word "admin" (JS.trim input) La) as Ha'.
  pose proof (toLowerCase_word "unadmin" (JS.trim input) Lu) as Hu'.
  fold (folded input) in Ha', Hu'.
  split; [|split; by symmetry].
  destruct (addTask_cases input st) as [?|? Ha|? Hu|? Ha Hu ?|? ? ? ?].
  - by rewrite addTask_blank.
  - rewrite addTask_admin by done. simpl. intros _. left. by rewrite <- Ha'.
  - rewrite addTask_unadmin by done. simpl. intros _. right. by rewrite <- Hu'.
  - by rewrite addTask_duplicate.
  - by rewrite addTask_creates.
Qed.

Lemma addTask_admin_flag_witness :
  (isAdmin (addTask "a1" 1700000000001 " ADMIN" low None blank_store) = true
   /\ in_any_case "admin" (JS.trim " ADMIN"))
  \/ (isAdmin (addTask "a1" 1700000000001 " ADMIN" low None blank_store) = false
      /\ in_any_case "unadmin" (JS.trim " ADMIN")).
Proof.
  apply (proj1 (addTask_admin_flag "a1" 1700000000001 " ADMIN" low None blank_store)).
  vm_compute. discriminate.
Defined.

(** ** Duplicates up to white space and letter case *)

Lemma append_assoc_r (a b c : string) : (a +:+ b) +:+ c = a +:+ (b +:+ c).
Proof.
  induction a as [|x a IH]; [done|].
  change (String x ((a +:+ b) +:+ c) = String x (a +:+ (b +:+ c))). by f_equal.
Qed.

Lemma trim_around pre s post :
  whitespace_only pre -> whitespace_only post ->
  JS.trim (pre +:+ s +:+ post) = JS.trim s.
Proof.
  intros Hpre Hpost.
  destruct (StringFacts.trim_decompose s) as (pre' & post' & Hpre' & Hpost' & Hs).
  destruct (decide (JS.trim s = "")) as [He|Hne].
  - rewrite He. apply trim_empty_iff. apply trim_empty_iff in He.
    rewrite !whitespace_only_app. tauto.
  - rewrite Hs at 1.
    assert (pre +:+ (pre' +:+ JS.trim s +:+ post') +:+ post
            = (pre +:+ pre') +:+ JS.trim s +:+ (post' +:+ post)) as ->.
    { by rewrite !append_assoc_r. }
    apply StringFacts.trim_surrounded.
    + by apply whitespace_only_app.
    + by apply whitespace_only_app.
    + unfold JS.trim. apply StringFacts.trimStart_trimEnd, StringFacts.trimStart_fixed.
    + unfold JS.trim. apply StringFacts.trimEnd_fixed.
    + done.
Qed.

Lemma toLowerChar_fixed c : JS.toLowerChar (JS.toLowerChar c) = JS.toLowerChar c.
Proof. by destruct c as [[] [] [] [] [] [] [] []]. Qed.

Lemma isWhiteSpace_toLowerChar c :
  JS.isWhiteSpace (JS.toLowerChar c) = JS.isWhiteSpace c.
Proof. by destruct c as [[] [] [] [] [] [] [] []]. Qed.

Lemma trimStart_toLowerCase s :
  JS.trimStart (JS.toLowerCase s) = JS.toLowerCase (JS.trimStart s).
Proof.
  induction s as [|c r IH]; simpl; [done|].
  rewrite isWhiteSpace_toLowerChar. by destruct (JS.isWhiteSpace c).
Qed.

Lemma trimEnd_toLowerCase s :
  JS.trimEnd (JS.toLowerCase s) = JS.toLowerCase (JS.trimEnd s).
Proof.
  induction s as [|c r IH]; simpl; [done|].
  rewrite IH, isWhiteSpace_toLowerChar.
  destruct (JS.trimEnd r); simpl; [|done]. by destruct (JS.isWhiteSpace c).
Qed.

Lemma toLowerCase_fixed s : JS.toLowerCase (JS.toLowerCase s) = JS.toLowerCase s.
Proof. induction s as [|c r IH]; simpl; [done|]. by rewrite toLowerChar_fixed, IH. Qed.

Lemma folded_toLowerCase s : folded (JS.toLowerCase s) = folded s.
Proof.
  unfold folded, JS.trim.
  by rewrite trimStart_toLowerCase, trimEnd_toLowerCase, toLowerCase_fixed.
Qed.

(** X7. White space around a text and the lower-casing of a text do
    not change the key by which [addTask] compares, so submitting the
    text of a task of the collection again with white space around it,
    or in lower case, never creates a second task. *)
Theorem addTask_same_text uuid now p d st t pre post :
  t ∈ tasks st -> whitespace_only pre -> whitespace_only post ->
  folded (pre +:+ text t +:+ post) = folded (text t)
  /\ folded (JS.toLowerCase (text t)) = folded (text t)
  /\ tasks (addTask uuid now (pre +:+ text t +:+ post) p d st) = tasks st
  /\ tasks (addTask uuid now (JS.toLowerCase (text t)) p d st) = tasks st.
Proof.
  intros Ht Hpre Hpost.
  assert (folded (pre +:+ text t +:+ post) = folded (text t)) as H1
    by (unfold folded; by rewrite trim_around).
  pose proof (folded_toLowerCase (text t)) as H2.
  assert (forall input, folded input = folded (text t) ->
            tasks (addTask uuid now input p d st) = tasks st) as Hdup.
  { intros input Hin.
    assert (duplicate_of input (tasks st)) as Hd by (exists t; by rewrite Hin).
    destruct (addTask_cases input st) as [?|? Ha|? Hu|? Ha Hu ?|? ? ? ?]; [| | | |done].
    - by rewrite addTask_blank.
    - by rewrite addTask_admin.
    - by rewrite addTask_unadmin.
    - by rewrite addTask_duplicate. }
  auto.
Qed.

Lemma addTask_same_text_witness :
  tasks (addTask "d" 1704000000000 "  pay rent " low None
           {| tasks := [rent_task; free_task]; notification := None;
              isAdmin := false |})
  = [rent_task; free_task].
Proof.
  apply (proj1 (proj2 (proj2 (addTask_same_text "d" 1704000000000 low None
           {| tasks := [rent_task; free_task]; notification := None;
              isAdmin := false |} rent_task "  " " "
           (list_elem_of_here _ _) (conj eq_refl (conj eq_refl I))
           (conj eq_refl I))))).
Defined.

(** X8. A task just created is not completed; it is in the overdue list
    exactly when it was given a due date, a non-empty text, that parses
    to a time before the evaluation time, and otherwise it is in the
    upcoming list. *)
Theorem addTask_new_task_view Date_parse uuid now input p d st time :
  let st' := addTask uuid now input p d st in
  tasks st' <> tasks st ->
  exists t, tasks st' = t :: tasks st /\ completed t = false
    /\ (t ∈ overdueTasks Date_parse (tasks st') time <->
        exists s z, d = Some s /\ s <> "" /\ Date_parse s = Some z /\ z < time)
    /\ (t ∈ todayTasks Date_parse (tasks st') time <->
        ~ exists s z, d = Some s /\ s <> "" /\ Date_parse s = Some z /\ z < time).
Proof.
  intros st' Hch. subst st'. revert Hch.
  destruct (addTask_cases input st) as [?|? Ha|? Hu|? Ha Hu ?|? ? ? ?].
  - by rewrite addTask_blank.
  - by rewrite addTask_admin.
  - by rewrite addTask_unadmin.
  - by rewrite addTask_duplicate.
  - rewrite addTask_creates by done. simpl. intros _.
    eexists. split; [reflexivity|]. split; [done|].
    assert (forall P : Prop,
      (completed {| id := uuid; text := JS.trim input; completed := false;
                    createdAt := now; priority := p;
                    dueDate := if JS.truthy d then d else None |} = false /\ P)
      <-> P) as Hc by (intros P; simpl; tauto).
    assert ((exists s z, (if JS.truthy d then d else None) = Some s /\ s <> ""
                         /\ Date_parse s = Some z /\ z < time)
            <-> exists s z, d = Some s /\ s <> "" /\ Date_parse s = Some z /\ z < time)
      as Hd.
    { destruct d as [[|c s]|]; simpl; [|done|]; split;
        intros (s' & z & ? & ? & ?); congruence. }
    rewrite elem_of_overdueTasks, elem_of_todayTasks.
    rewrite <- not_true_iff_false, !isOverdue_spec. unfold overdue_at.
    rewrite Hc. simpl. rewrite Hd.
    split; (split; [intros [_ ?]; done|]); intros ?;
      (split; [apply list_elem_of_here|done]).
Qed.

Lemma addTask_new_task_view_witness :
  exists t,
    tasks (addTask "d" 1704000000000 "Renew pass" high (Some "2024-01-01")
             {| tasks := [free_task]; notification := None; isAdmin := false |})
    = t :: [free_task]
    /\ completed t = false
    /\ (t ∈ overdueTasks ISODate.parse
              (tasks (addTask "d" 1704000000000 "Renew pass" high (Some "2024-01-01")
                        {| tasks := [free_task]; notification := None;
                           isAdmin := false |})) jan2 <->
        exists s z, Some "2024-01-01" = Some s /\ s <> ""
                    /\ ISODate.parse s = Some z /\ z < jan2)
    /\ (t ∈ todayTasks ISODate.parse
              (tasks (addTask "d" 1704000000000 "Renew pass" high (Some "2024-01-01")
                        {| tasks := [free_task]; notification := None;
                           isAdmin := false |})) jan2 <->
        ~ exists s z, Some "2024-01-01" = Some s /\ s <> ""
                      /\ ISODate.parse s = Some z /\ z < jan2).
Proof.
  apply (addTask_new_task_view ISODate.parse "d" 1704000000000 "Renew pass" high
           (Some "2024-01-01")
           {| tasks := [free_task]; notification := None; isAdmin := false |} jan2).
  vm_compute. discriminate.
Defined.

(** ** The views under the passing of time and under the handlers *)

Section ViewExtras.
Variable Date_parse : string -> option Z.

Lemma isOverdue_mono now now' t :
  now <= now' -> isOverdue Date_parse now t = true ->
  isOverdue Date_parse now' t = true.
Proof.
  intros Hle. rewrite !isOverdue_spec.
  intros (Hc & d & z & ? & ? & ? & ?). split; [done|].
  exists d, z. repeat split; try done. lia.
Qed.

(** X9. As time passes tasks only move from the upcoming list to the
    overdue list: a task overdue at some time is overdue at every later
    time, and a task upcoming at some time was upcoming at every earlier
    time. *)
Theorem overdue_monotone ts now now' t :
  now <= now' ->
  (t ∈ overdueTasks Date_parse ts now -> t ∈ overdueTasks Date_parse ts now')
  /\ (t ∈ todayTasks Date_parse ts now' -> t ∈ todayTasks Date_parse ts now).
Proof.
  intros Hle. rewrite !elem_of_overdueTasks, !elem_of_todayTasks. split.
  - intros [? ?]. eauto using isOverdue_mono.
  - intros [? Hn]. split; [done|].
    destruct (isOverdue Date_parse now t) eqn:E; [|done].
    apply (isOverdue_mono now now') in E; [congruence|done].
Qed.

(** X10. Completing an overdue task moves it to the upcoming list, and
    re-opening a completed task whose due date has passed moves it to the
    overdue list. *)
Theorem toggleTask_moves i st now t :
  t ∈ tasks st -> id t = i ->
  (t ∈ overdueTasks Date_parse (tasks st) now ->
     toggled i t ∈ todayTasks Date_parse (tasks (toggleTask i st)) now
     /\ toggled i t ∉ overdueTasks Date_parse (tasks (toggleTask i st)) now)
  /\ (completed t = true ->
      (exists d z, dueDate t = Some d /\ d <> "" /\ Date_parse d = Some z /\ z < now) ->
      toggled i t ∈ overdueTasks Date_parse (tasks (toggleTask i st)) now).
Proof.
  intros Ht Hi.
  assert (toggled i t ∈ tasks (toggleTask i st)) as Hin.
  { rewrite toggleTask_tasks. by apply list_elem_of_fmap_2. }
  pose proof (toggled_match i t Hi) as Hc.
  destruct (toggled_frame i t) as (_ & _ & _ & _ & Hd).
  split.
  - rewrite !elem_of_overdueTasks, elem_of_todayTasks. intros [_ Ho].
    apply isOverdue_spec in Ho as [Hf _].
    assert (isOverdue Date_parse now (toggled i t) = false) as Hno.
    { unfold isOverdue. by rewrite Hc, Hf. }
    split; [done|]. intros [_ ?]. congruence.
  - intros Hcomp Hdue. rewrite elem_of_overdueTasks. split; [done|].
    apply isOverdue_spec. split; [by rewrite Hc, Hcomp|]. by rewrite Hd.
Qed.

Lemma filter_completed_not_overdue now (l : list Task) :
  filter (fun t => completed t = true)
    (filter (fun t => ~ isOverdue Date_parse now t = true) l)
  = filter (fun t => completed t = true) l.
Proof.
  rewrite list_filter_filter. apply list_filter_iff. intros t. split; [tauto|].
  intros Hc. split; [done|]. rewrite isOverdue_spec. intros [Hf _]. congruence.
Qed.

Lemma completed_today ts now :
  length (filter (fun t => completed t = true) (todayTasks Date_parse ts now))
  = completed_count ts.
Proof.
  rewrite todayTasks_filter, filter_completed_not_overdue.
  unfold completed_count. by rewrite sortedTasks_perm.
Qed.

Lemma productivityPercentage_by_counts ts now :
  productivityPercentage Date_parse ts now
  = if decide (ts = []) then Some 100
    else rounded_ratio (completed_count ts) (length ts).
Proof.
  rewrite productivityPercentage_unfold.
  by rewrite completed_today, views_length.
Qed.
End ViewExtras.

Lemma toggleTask_moves_witness :
  toggled "a" rent_task
    ∈ todayTasks ISODate.parse
        (tasks (toggleTask "a" {| tasks := [rent_task; paid_task; free_task];
                                  notification := None; isAdmin := false |})) jan2
  /\ toggled "a" rent_task
    ∉ overdueTasks ISODate.parse
        (tasks (toggleTask "a" {| tasks := [rent_task; paid_task; free_task];
                                  notification := None; isAdmin := false |})) jan2.
Proof.
  refine (proj1 (toggleTask_moves ISODate.parse "a"
                   {| tasks := [rent_task; paid_task; free_task];
                      notification := None; isAdmin := false |} jan2 rent_task
                   _ eq_refl) _).
  - apply list_elem_of_here.
  - vm_compute. apply list_elem_of_here.
Defined.

Lemma overdue_monotone_witness :
  rent_task ∈ overdueTasks ISODate.parse [rent_task; paid_task; free_task]
                (jan2 + 60000).
Proof.
  refine (proj1 (overdue_monotone ISODate.parse [rent_task; paid_task; free_task]
                   jan2 (jan2 + 60000) rent_task _) _).
  - unfold jan2. lia.
  - vm_compute. apply list_elem_of_here.
Defined.

(** X11. The percentage depends on the number of tasks and on the number
    of completed tasks only, not on the time nor on the due dates: it is
    100 for the empty collection and otherwise the rounded ratio of the
    completed tasks among all tasks. *)
Theorem productivityPercentage_counts D ts now :
  productivityPercentage D ts now
  = (if decide (ts = []) then Some 100
     else rounded_ratio (completed_count ts) (length ts))
  /\ forall D' now', productivityPercentage D' ts now' = productivityPercentage D ts now.
Proof.
  split; [apply productivityPercentage_by_counts|].
  intros D' now'. by rewrite !productivityPercentage_by_counts.
Qed.

(** ** The display order under the handlers *)

Section SortMap.
Import JS.
Context {A : Type} (comparefn : A -> A -> option Z) (f : A -> A).
Hypothesis f_cmp : forall x y,
  SortCompare comparefn (f x) (f y) = SortCompare comparefn x y.

Lemma sort_insert_fmap x (l : list A) :
  sort_insert comparefn (f x) (f <$> l) = f <$> sort_insert comparefn x l.
Proof.
  induction l as [|y l IH]; [done|]. rewrite fmap_cons. simpl.
  rewrite f_cmp. destruct (SortCompare comparefn x y <=? 0); [done|].
  by rewrite fmap_cons, IH.
Qed.

Lemma Array_sort_fmap (l : list A) :
  Array_sort comparefn (f <$> l) = f <$> Array_sort comparefn l.
Proof.
  induction l as [|x l IH]; [done|]. rewrite fmap_cons. simpl.
  by rewrite IH, sort_insert_fmap.
Qed.
End SortMap.

Lemma sortedTasks_filter (P : Task -> Prop) `{!forall t, Decision (P t)} ts :
  sortedTasks (filter P ts) = filter P (sortedTasks ts).
Proof.
  symmetry. apply sortedTasks_unique.
  - apply StronglySorted_filter, sortedTasks_sorted.
  - intros e. rewrite !list_filter_filter.
    rewrite (list_filter_iff _ (fun t => P t /\ same_rank e t)) by tauto.
    rewrite (list_filter_iff (fun t => same_rank e t /\ P t)
               (fun t => P t /\ same_rank e t) ts) by tauto.
    rewrite <- !list_filter_filter. by rewrite sortedTasks_stable.
Qed.

(** X12. Toggling and deleting do not reorder the display: the sorted
    collection after a toggle is the sorted collection with the task
    toggled in place, after a deletion it is the sorted collection
    without the task, and so is the upcoming list after a deletion.
    Sorting a sorted collection changes nothing. *)
Theorem sortedTasks_handlers Date_parse i st now :
  sortedTasks (tasks (toggleTask i st)) = toggled i <$> sortedTasks (tasks st)
  /\ sortedTasks (tasks (deleteTask i st))
     = filter (fun t => id t <> i) (sortedTasks (tasks st))
  /\ todayTasks Date_parse (tasks (deleteTask i st)) now
     = filter (fun t => id t <> i) (todayTasks Date_parse (tasks st) now)
  /\ sortedTasks (sortedTasks (tasks st)) = sortedTasks (tasks st).
Proof.
  assert (sortedTasks (tasks (deleteTask i st))
          = filter (fun t => id t <> i) (sortedTasks (tasks st))) as Hdel
    by apply (sortedTasks_filter _).
  split; [|split; [done|split]].
  - rewrite toggleTask_tasks. apply Array_sort_fmap. intros x y.
    rewrite !SortCompare_byPriorityThenNewest.
    destruct (toggled_frame i x) as (_ & _ & -> & -> & _).
    by destruct (toggled_frame i y) as (_ & _ & -> & -> & _).
  - rewrite !todayTasks_filter, Hdel, !list_filter_filter.
    apply list_filter_iff. tauto.
  - symmetry. apply sortedTasks_unique; [apply sortedTasks_sorted|done].
Qed.

(** ** The order of the overdue list *)

(** X13. The overdue list is sorted by priority rank and then by due
    date, the soonest first; overdue tasks of the same priority and the
    same due date stay in the order of [sortedTasks], the newest first. *)
Theorem overdueTasks_order Date_parse ts now :
  Sorted (due_before Date_parse) (overdueTasks Date_parse ts now)
  /\ forall e,
       filter (same_due Date_parse e) (overdueTasks Date_parse ts now)
       = filter (same_due Date_parse e)
           (filter (fun t => isOverdue Date_parse now t = true) (sortedTasks ts))
       /\ StronglySorted sorts_before
            (filter (same_due Date_parse e) (overdueTasks Date_parse ts now)).
Proof.
  split; [apply overdueTasks_sorted|]. intros e.
  assert (filter (same_due Date_parse e) (overdueTasks Date_parse ts now)
          = filter (same_due Date_parse e)
              (filter (fun t => isOverdue Date_parse now t = true) (sortedTasks ts)))
    as Heq.
  { unfold overdueTasks. rewrite classify_spec. simpl.
    apply Array_sort_stable. intros x y [Hpx Hdx] [Hpy Hdy].
    unfold JS.SortCompare, byPriorityThenDue. rewrite <- Hpx, <- Hpy, <- Hdx, <- Hdy.
    rewrite Z.sub_diag. simpl. destruct (dueTime Date_parse e); simpl; lia. }
  split; [done|]. rewrite Heq.
  do 2 apply StronglySorted_filter. apply sortedTasks_sorted.
Qed.

(** ** The theme *)

(** X14. The initial theme is the saved one when a non-empty theme is
    saved, and otherwise dark exactly when the host has [matchMedia] and
    prefers dark; it is never the empty text.  A toggle always gives
    light or dark: it exchanges the two, and sends any other saved theme
    to dark. *)
Theorem theme_values localStorage matchMedia theme :
  initialTheme localStorage matchMedia <> ""
  /\ (forall s, localStorage "theme" = Some s -> s <> "" ->
        initialTheme localStorage matchMedia = s)
  /\ (localStorage "theme" = None \/ localStorage "theme" = Some "" ->
        initialTheme localStorage matchMedia
        = if prefers_dark matchMedia then "dark" else "light")
  /\ (toggleTheme theme = "light" \/ toggleTheme theme = "dark")
  /\ (theme = "dark" \/ theme = "light" -> toggleTheme (toggleTheme theme) = theme)
  /\ (theme <> "dark" -> toggleTheme theme = "dark").
Proof.
  unfold initialTheme, toggleTheme, prefers_dark.
  split; [|split; [|split; [|split; [|split]]]].
  - destruct (localStorage "theme") as [[|c s]|]; simpl;
      destruct matchMedia as [m|]; try destruct (m _); done.
  - intros s -> Hs. by destruct s.
  - intros [->| ->]; simpl; destruct matchMedia as [m|]; done.
  - case_decide; auto.
  - intros [->| ->]; done.
  - intros Hd. by rewrite decide_False.
Qed.

Lemma theme_values_witness :
  initialTheme (storage_with_theme "dark") None = "dark"
  /\ toggleTheme (toggleTheme "light") = "light"
  /\ toggleTheme "solarized" = "dark".
Proof.
  split; [|split].
  - apply (proj1 (proj2 (theme_values (storage_with_theme "dark") None "dark"))
             "dark"); [reflexivity|discriminate].
  - apply (proj1 (proj2 (proj2 (proj2 (proj2
             (theme_values (storage_with_theme "dark") None "light")))))).
    by right.
  - apply (proj2 (proj2 (proj2 (proj2 (proj2
             (theme_values (storage_with_theme "dark") None "solarized")))))).
    discriminate.
Defined.

(** ** The effects on the page *)

(** X15. The theme effect leaves the class [dark] on the document
    exactly when the theme is dark, touches no other class, saves the
    theme and no other key, and running it again changes nothing.  A
    theme that is not empty, as every theme of the component is, is the
    initial theme of the next start whatever the host prefers. *)
Theorem themeEffect_page theme page :
  ("dark" ∈ classList (themeEffect theme page) <-> theme = "dark")
  /\ (forall c, c <> "dark" ->
        (c ∈ classList (themeEffect theme page) <-> c ∈ classList page))
  /\ stored (themeEffect theme page) "theme" = Some theme
  /\ (forall key, key <> "theme" ->
        stored (themeEffect theme page) key = stored page key)
  /\ themeEffect theme (themeEffect theme page) = themeEffect theme page
  /\ (theme <> "" ->
      forall matchMedia,
        initialTheme (stored (themeEffect theme page)) matchMedia = theme).
Proof.
  unfold themeEffect, stored. simpl.
  split; [|split; [|split; [|split; [|split]]]].
  - case_decide.
    + rewrite elem_of_union, elem_of_singleton. tauto.
    + rewrite elem_of_difference, elem_of_singleton. tauto.
  - intros c Hc. case_decide.
    + rewrite elem_of_union, elem_of_singleton. tauto.
    + rewrite elem_of_difference, elem_of_singleton. tauto.
  - apply lookup_insert_eq.
  - intros key Hk. by apply lookup_insert_ne.
  - f_equal; [|apply insert_insert_eq].
    case_decide; apply set_eq; intros c.
    + rewrite !elem_of_union. tauto.
    + rewrite !elem_of_difference. tauto.
  - intros Hne mm. unfold initialTheme. rewrite lookup_insert_eq.
    by destruct theme.
Qed.

Lemma themeEffect_page_witness :
  initialTheme
    (stored (themeEffect "dark" {| classList := ∅; storage := ∅ |})) None
  = "dark".
Proof.
  apply (proj2 (proj2 (proj2 (proj2 (proj2
           (themeEffect_page "dark" {| classList := ∅; storage := ∅ |})))))).
  discriminate.
Defined.

(** X16. The tasks effect saves the serialized collection under [tasks]
    and touches neither another key nor the classes; the two effects
    commute; and when the parser reads back what the serializer wrote, a
    text that is not empty, loading after the effect gives the
    collection back and writes nothing to the console. *)
Theorem tasksEffect_page {E} (JSON_parse : string -> outcome E (list Task))
    (JSON_stringify : list Task -> string) ts theme page console :
  stored (tasksEffect JSON_stringify ts page) "tasks" = Some (JSON_stringify ts)
  /\ (forall key, key <> "tasks" ->
        stored (tasksEffect JSON_stringify ts page) key = stored page key)
  /\ classList (tasksEffect JSON_stringify ts page) = classList page
  /\ themeEffect theme (tasksEffect JSON_stringify ts page)
     = tasksEffect JSON_stringify ts (themeEffect theme page)
  /\ (JSON_stringify ts <> "" ->
      JSON_parse (JSON_stringify ts) = Returns ts ->
      initialTasks JSON_parse (stored (tasksEffect JSON_stringify ts page)) console
      = (Returns ts, console)).
Proof.
  unfold tasksEffect, themeEffect, stored. simpl.
  split; [|split; [|split; [|split]]].
  - apply lookup_insert_eq.
  - intros key Hk. by apply lookup_insert_ne.
  - done.
  - f_equal. by apply insert_insert_ne.
  - intros Hne Hp. rewrite initialTasks_unfold, lookup_insert_eq.
    by rewrite decide_False, Hp.
Qed.

Lemma tasksEffect_page_witness :
  initialTasks JSON.parse
    (stored (tasksEffect JSON.stringify saved_tasks
               (themeEffect "dark" {| classList := ∅; storage := ∅ |}))) []
  = (Returns saved_tasks, []).
Proof.
  apply (proj2 (proj2 (proj2 (proj2
           (tasksEffect_page JSON.parse JSON.stringify saved_tasks "dark"
              (themeEffect "dark" {| classList := ∅; storage := ∅ |}) []))))).
  - vm_compute. discriminate.
  - vm_compute. reflexivity.
Defined.

(** ** Sequences of actions *)

Lemma run_invariant (Inv : AppState -> Prop) actions st :
  (forall st a, Inv st -> Inv (handle st a)) -> Inv st -> Inv (run actions st).
Proof.
  intros Hstep. unfold run. revert st.
  induction actions as [|a actions IH]; intros st Hst; simpl; auto.
Qed.

Lemma handle_ids st a x :
  x ∈ id <$> tasks (handle st a) ->
  x ∈ drawn_ids [a] \/ x ∈ id <$> tasks st.
Proof.
  destruct a as [uuid now input p d|i|i]; cbn [handle].
  - destruct (addTask_cases input st) as [?|? Ha|? Hu|? Ha Hu ?|? ? ? ?].
    + rewrite addTask_blank by done. auto.
    + rewrite addTask_admin by done. auto.
    + rewrite addTask_unadmin by done. auto.
    + rewrite addTask_duplicate by done. auto.
    + rewrite addTask_creates by done. simpl. intros Hx.
      apply elem_of_cons in Hx as [->|Hx]; [left|by right].
      apply list_elem_of_here.
  - rewrite toggleTask_tasks, toggled_id_fmap. auto.
  - unfold deleteTask, setTasks. simpl. intros Hx. right.
    apply list_elem_of_fmap in Hx as (t & -> & Ht).
    apply list_elem_of_filter in Ht as [_ Ht]. by apply list_elem_of_fmap_2.
Qed.

Lemma run_ids_unique actions st :
  NoDup (drawn_ids actions) -> ids_unique (tasks st) ->
  (forall u, u ∈ drawn_ids actions -> u ∉ id <$> tasks st) ->
  ids_unique (tasks (run actions st)).
Proof.
  unfold run, drawn_ids. revert st.
  induction actions as [|a actions IH]; intros st Hnd Hst Hfresh; [done|].
  simpl in *. apply NoDup_app in Hnd as (Ha & Hdisj & Hnd).
  apply IH; [done| |].
  - destruct a as [uuid now input p d|i|i]; simpl.
    + apply (keep_ids_unique st Hst). apply Hfresh.
      apply elem_of_app. left. apply list_elem_of_here.
    + by apply (keep_ids_unique st Hst).
    + by apply (keep_ids_unique st Hst).
  - intros u Hu Hin. apply handle_ids in Hin as [Hin|Hin].
    + apply (Hdisj u); [|done]. unfold drawn_ids in Hin. simpl in Hin.
      by rewrite app_nil_r in Hin.
    + apply (Hfresh u); [|done]. apply elem_of_app. by right.
Qed.

(** X17. After any sequence of submissions, toggles and deletions from a
    start with nothing saved, no task has a blank text, no two tasks have
    the same trimmed, case-folded text, and an input that duplicates a
    task is rejected with a notification, the collection unchanged.  When
    the identifiers drawn by the submissions are distinct, so are the
    identifiers of the tasks. *)
Theorem run_invariants actions :
  let st := run actions fresh_start in
  texts_nonblank (tasks st)
  /\ texts_unique (tasks st)
  /\ (forall uuid now input p d,
        duplicate_of input (tasks st) ->
        tasks (addTask uuid now input p d st) = tasks st
        /\ exists m, notification (addTask uuid now input p d st) = Some m)
  /\ (NoDup (drawn_ids actions) -> ids_unique (tasks st)).
Proof.
  intros st. subst st.
  assert (texts_nonblank (tasks (run actions fresh_start))) as Hnb.
  { apply (run_invariant (fun st => texts_nonblank (tasks st))); [|constructor].
    intros st [uuid now input p d|i|i] Hst; simpl;
      by apply (handlers_keep_texts_nonblank st Hst). }
  split; [done|]. split; [|split].
  - apply (run_invariant (fun st => texts_unique (tasks st))); [|constructor].
    intros st [uuid now input p d|i|i] Hst; simpl;
      by apply (keep_texts_unique st Hst).
  - intros uuid now input p d Hdup.
    pose proof (duplicate_nonblank _ _ Hnb Hdup) as Hne.
    set (st := run actions fresh_start) in *.
    destruct (addTask_cases input st) as [?|? Ha|? Hu|? Ha Hu ?|? ? ? ?]; try done.
    + rewrite addTask_admin by done. simpl. eauto.
    + rewrite addTask_unadmin by done. simpl. eauto.
    + rewrite addTask_duplicate by done. simpl. eauto.
  - intros Hnd. apply run_ids_unique; [done|constructor|].
    intros u _ Hu. simpl in Hu. by apply elem_of_nil in Hu.
Qed.

Lemma run_invariants_witness :
  ids_unique
    (tasks (run [Add "u1" 10 "Buy milk" low None; Toggle "u1";
                 Add "u2" 20 " buy MILK " high None;
                 Add "u3" 30 "Call home" high (Some "2024-01-01");
                 Delete "u1"] fresh_start)).
Proof.
  apply (proj2 (proj2 (proj2 (run_invariants
           [Add "u1" 10 "Buy milk" low None; Toggle "u1";
            Add "u2" 20 " buy MILK " high None;
            Add "u3" 30 "Call home" high (Some "2024-01-01");
            Delete "u1"])))).
  apply (bool_decide_unpack _). vm_compute. exact I.
Defined.
